(** * Actor-critic agent: return estimation, policy network and update step

    A shallow embedding of [networks/actor_critic.py].  Tensor entries are
    idealised as real numbers; Python exceptions are values of [exn] carried
    by the [result] monad; objects that the code mutates ([Agent]) are
    threaded explicitly. *)

From Stdlib Require Import String.
From Stdlib Require Import Reals Lra Lia List Bool Arith.
Import ListNotations.
Open Scope R_scope.

(** ** Python exceptions and fallible computations

    [UserError] stands for an exception class defined by the program
    itself; the module defines none, so nothing below raises it. *)

Inductive exn : Type :=
| RuntimeError
| IndexError
| ValueError
| TypeError
| AttributeError (name : string)
| UserError (class : string).

Inductive result (A : Type) : Type :=
| Ok (a : A)
| Raise (e : exn).

Arguments Ok {A} a.
Arguments Raise {A} e.

Definition bind {A B : Type} (m : result A) (k : A -> result B) : result B :=
  match m with
  | Ok a => k a
  | Raise e => Raise e
  end.

Notation "x <- m ;; k" := (bind m (fun x => k))
  (at level 61, m at next level, right associativity).
Notation "' p <- m ;; k" := (bind m (fun p => k))
  (at level 61, p pattern, m at next level, right associativity).

Definition raises {A : Type} (m : result A) : Prop :=
  exists e, m = Raise e.

(** ** Sequences: subscripting, item assignment, loops over index ranges *)

(** [l[t]]: an out-of-range subscript raises [IndexError]. *)
Definition getitem {A : Type} (l : list A) (t : nat) : result A :=
  match nth_error l t with
  | Some x => Ok x
  | None => Raise IndexError
  end.

(** [l[t] = x]: an out-of-range subscript raises [IndexError]. *)
Definition setitem {A : Type} (l : list A) (t : nat) (x : A) : result (list A) :=
  if (t <? length l)%nat
  then Ok (firstn t l ++ x :: skipn (S t) l)
  else Raise IndexError.

(** [for t in ts: body], threading the loop-carried variables [s]. *)
Fixpoint for_each {S : Type} (ts : list nat) (body : nat -> S -> result S)
  (s : S) : result S :=
  match ts with
  | [] => Ok s
  | t :: ts' => s' <- body t s ;; for_each ts' body s'
  end.

(** [reversed(range(0, n))] *)
Definition reversed_range (n : nat) : list nat := rev (seq 0 n).

(** [torch.zeros_like] on a one-dimensional tensor. *)
Definition zeros_like (r : list R) : list R := repeat 0 (length r).

(** ** Return estimation *)

Module ReturnEstimator.

(** [discount_rewards(r, gamma)] on a one-dimensional reward tensor. *)
Definition discount_rewards (r : list R) (gamma : R) : result (list R) :=
  let discounted_r := zeros_like r in
  let running_add := 0 in
  st <- for_each (reversed_range (length r))
          (fun t '(running_add, discounted_r) =>
             rt <- getitem r t ;;
             let running_add := running_add * gamma + rt in
             discounted_r <- setitem discounted_r t running_add ;;
             Ok (running_add, discounted_r))
          (running_add, discounted_r) ;;
  Ok (snd st).

(** [bootstrapped_discount_rewards(r, gamma, done, next_values)] *)
Definition bootstrapped_discount_rewards (r : list R) (gamma : R)
  (done : list bool) (next_values : list R) : result (list R) :=
  let bootstrapped_discounted_r := zeros_like r in
  let running_add := 0 in
  st <- for_each (reversed_range (length r))
          (fun t '(running_add, bootstrapped_discounted_r) =>
             d <- getitem done t ;;
             running_add <- (if d : bool then Ok 0
                             else nv <- getitem next_values t ;;
                                  Ok (gamma * nv)) ;;
             rt <- getitem r t ;;
             bootstrapped_discounted_r <-
               setitem bootstrapped_discounted_r t (running_add + rt) ;;
             Ok (running_add, bootstrapped_discounted_r))
          (running_add, bootstrapped_discounted_r) ;;
  Ok (snd st).

End ReturnEstimator.

Import ReturnEstimator.

(** The recurrence the specification gives for the plain returns:
    [G[t] = r[t] + gamma * G[t+1]] with [G[len] = 0]. *)
Fixpoint returns_spec (r : list R) (gamma : R) : list R :=
  match r with
  | [] => []
  | x :: xs => (x + gamma * hd 0 (returns_spec xs gamma)) :: returns_spec xs gamma
  end.

(** The step-local value the specification gives for the bootstrapped
    returns at step [t]: reward plus the continuation term. *)
Definition bootstrap_at (r : list R) (gamma : R) (done : list bool)
  (next_values : list R) (t : nat) : R :=
  nth t r 0 + (if nth t done true then 0 else gamma * nth t next_values 0).

(** Step [t] can be subscripted by the bootstrapped loop: [done[t]] exists,
    and [next_values[t]] exists when [done[t]] is false. *)
Definition step_indexable (done : list bool) (next_values : list R) (t : nat) : bool :=
  match nth_error done t with
  | None => false
  | Some true => true
  | Some false => match nth_error next_values t with
                  | None => false
                  | Some _ => true
                  end
  end.

Definition all_indexable (r : list R) (done : list bool) (next_values : list R) : bool :=
  forallb (step_indexable done next_values) (seq 0 (length r)).

(** ** Tracked scalars: a value with its derivative in parameter space

    A tensor entry that takes part in automatic differentiation is a value
    together with its gradient with respect to the policy parameters; an
    entry without gradient history carries [gzero]. *)

Class GradSpace : Type := {
  Grad : Type;
  gzero : Grad;
  gadd : Grad -> Grad -> Grad;
  gscale : R -> Grad -> Grad
}.

Record tensor (A : Type) : Type := T { shape : list nat; data : list A }.

Arguments T {A} shape data.
Arguments shape {A} t.
Arguments data {A} t.

Module Torch.

Section Scalars.

Context `{GradSpace}.

Record dual : Type := D { val : R; grad : Grad }.

Definition dconst (x : R) : dual := D x gzero.

Definition dadd (a b : dual) : dual :=
  D (val a + val b) (gadd (grad a) (grad b)).

Definition dsub (a b : dual) : dual :=
  D (val a - val b) (gadd (grad a) (gscale (-1) (grad b))).

Definition dneg (a : dual) : dual :=
  D (- val a) (gscale (-1) (grad a)).

Definition dmul (a b : dual) : dual :=
  D (val a * val b) (gadd (gscale (val b) (grad a)) (gscale (val a) (grad b))).

(** A differentiable unary function [f] with derivative [f']. *)
Definition dlift (f f' : R -> R) (a : dual) : dual :=
  D (f (val a)) (gscale (f' (val a)) (grad a)).

Definition dinv : dual -> dual := dlift Rinv (fun u => - / (u * u)).

Definition ddiv (a b : dual) : dual := dmul a (dinv b).

Definition dsqrt : dual -> dual := dlift sqrt (fun u => / (2 * sqrt u)).

Definition dlog : dual -> dual := dlift ln Rinv.

Definition dsum (l : list dual) : dual := fold_right dadd (dconst 0) l.

(** The 2-norm of a vector of entries. *)
Definition dnorm2 (l : list dual) : dual :=
  dsqrt (dsum (map (fun x => dmul x x) l)).

Definition Rpositive (x : R) : bool := if Rlt_dec 0 x then true else false.

Definition drelu (a : dual) : dual :=
  if Rpositive (val a) then a else dconst 0.

(** [F.softplus] with its defaults [beta = 1], [threshold = 20], over the
    reals: the result is strictly positive there, while in float32 it
    underflows to [0.0] on very negative inputs, which this model does not
    represent. *)
Definition dsoftplus (a : dual) : dual :=
  if Rpositive (val a - 20) then a
  else dlift (fun u => ln (1 + exp u)) (fun u => exp u / (1 + exp u)) a.

Definition dtanh : dual -> dual :=
  dlift tanh (fun u => 1 - tanh u * tanh u).

End Scalars.

(** *** Shapes and row-major storage *)

Definition numel (s : list nat) : nat := fold_right Nat.mul 1%nat s.

Fixpoint shape_eqb (a b : list nat) : bool :=
  match a, b with
  | [], [] => true
  | x :: a', y :: b' => (x =? y)%nat && shape_eqb a' b'
  | _, _ => false
  end.

Section Shapes.

Context {A : Type}.

(** [torch.stack(ts, dim=0)] *)
Definition stack (ts : list (tensor A)) : result (tensor A) :=
  match ts with
  | [] => Raise RuntimeError
  | t :: ts' =>
      if forallb (fun t' => shape_eqb (shape t) (shape t')) ts'
      then Ok (T (length ts :: shape t) (concat (map data ts)))
      else Raise RuntimeError
  end.

(** [t.squeeze(-1)] *)
Definition squeeze_last (t : tensor A) : tensor A :=
  match rev (shape t) with
  | 1%nat :: s => T (rev s) (data t)
  | _ => t
  end.

(** [t.squeeze(0)] *)
Definition squeeze0 (t : tensor A) : tensor A :=
  match shape t with
  | 1%nat :: s => T s (data t)
  | _ => t
  end.

(** [t.squeeze()] *)
Definition squeeze (t : tensor A) : tensor A :=
  T (filter (fun d => negb (d =? 1)%nat) (shape t)) (data t).

(** [t.unsqueeze(0)] *)
Definition unsqueeze0 (t : tensor A) : tensor A :=
  T (1%nat :: shape t) (data t).

(** [t.unsqueeze(1)]: the dimension must lie within the rank. *)
Definition unsqueeze1 (t : tensor A) : result (tensor A) :=
  match shape t with
  | [] => Raise IndexError
  | d :: s => Ok (T (d :: 1%nat :: s) (data t))
  end.

Definition tmap {B : Type} (f : A -> B) (t : tensor A) : tensor B :=
  T (shape t) (map f (data t)).

(** The single entry of a one-element tensor. *)
Definition item (t : tensor A) : result A :=
  match data t with
  | [x] => Ok x
  | _ => Raise RuntimeError
  end.

(** Broadcasting.  Shapes are aligned at their last dimension, so the
    functions below work on reversed shapes. *)
Fixpoint broadcast_rev (a b : list nat) : option (list nat) :=
  match a, b with
  | [], _ => Some b
  | _, [] => Some a
  | x :: a', y :: b' =>
      match broadcast_rev a' b' with
      | None => None
      | Some s =>
          if (x =? y)%nat then Some (x :: s)
          else if (x =? 1)%nat then Some (y :: s)
          else if (y =? 1)%nat then Some (x :: s)
          else None
      end
  end.

(** The multi-index (last dimension first) of flat position [k]. *)
Fixpoint unravel_rev (rshape : list nat) (k : nat) : list nat :=
  match rshape with
  | [] => []
  | d :: s => (k mod d)%nat :: unravel_rev s (k / d)
  end.

(** The flat position in an operand of reversed shape [rshape] read at the
    output multi-index [ridx]; a dimension of size one is read at 0. *)
Fixpoint ravel_rev (rshape ridx : list nat) : nat :=
  match rshape, ridx with
  | d :: s, i :: ridx' =>
      ((if (d =? 1)%nat then 0 else i) + d * ravel_rev s ridx')%nat
  | _, _ => 0%nat
  end.

(** An elementwise binary operation with broadcasting. *)
Definition broadcast2 (dflt : A) (f : A -> A -> A) (a b : tensor A)
  : result (tensor A) :=
  let ra := rev (shape a) in
  let rb := rev (shape b) in
  match broadcast_rev ra rb with
  | None => Raise RuntimeError
  | Some rs =>
      Ok (T (rev rs)
            (map (fun k =>
                    let ridx := unravel_rev rs k in
                    f (nth (ravel_rev ra ridx) (data a) dflt)
                      (nth (ravel_rev rb ridx) (data b) dflt))
                 (seq 0 (numel rs))))
  end.

End Shapes.

Section TensorOps.

Context `{GradSpace}.

Definition tsub : tensor dual -> tensor dual -> result (tensor dual) :=
  broadcast2 (dconst 0) dsub.

Definition tadd : tensor dual -> tensor dual -> result (tensor dual) :=
  broadcast2 (dconst 0) dadd.

Definition tmul : tensor dual -> tensor dual -> result (tensor dual) :=
  broadcast2 (dconst 0) dmul.

Definition tdiv : tensor dual -> tensor dual -> result (tensor dual) :=
  broadcast2 (dconst 0) ddiv.

Definition tneg : tensor dual -> tensor dual := tmap dneg.

(** [t.detach()]: same values, no gradient history. *)
Definition detach : tensor dual -> tensor dual :=
  tmap (fun a => dconst (val a)).

(** A tensor without gradient history seen as a tracked one. *)
Definition constant : tensor R -> tensor dual := tmap dconst.

(** [t.mean()] over all entries; the result has no dimensions. *)
Definition mean (t : tensor dual) : tensor dual :=
  T [] [ddiv (dsum (data t)) (dconst (INR (length (data t))))].

(** [t.sum()] over all entries. *)
Definition sum (t : tensor dual) : tensor dual := T [] [dsum (data t)].

(** [torch.sum(t, dim=1)] *)
Definition sum_dim1 (t : tensor dual) : result (tensor dual) :=
  match shape t with
  | d0 :: d1 :: s =>
      let inner := numel s in
      Ok (T (d0 :: s)
            (map (fun ik =>
                    let i := (ik / inner)%nat in
                    let k := (ik mod inner)%nat in
                    dsum (map (fun j => nth ((i * d1 + j) * inner + k)%nat
                                            (data t) (dconst 0))
                              (seq 0 d1)))
                 (seq 0 (d0 * inner))))
  | _ => Raise IndexError
  end.

(** The 2-norm along the last dimension (a tensor without dimensions is
    treated as a single vector of one entry). *)
Definition norm_last (t : tensor dual) : tensor dual :=
  match rev (shape t) with
  | [] => T [] (map (fun x => dnorm2 [x]) (data t))
  | d :: rs =>
      T (rev rs)
        (map (fun i => dnorm2 (firstn d (skipn (i * d) (data t))))
             (seq 0 (numel rs)))
  end.

(** The library default [eps] of [pairwise_distance]. *)
Definition eps : R := 1 / 1000000.

(** [F.pairwise_distance(x1, x2, p=2)]: the norm of [x1 - x2 + eps] along
    the innermost dimension of the broadcast difference. *)
Definition pairwise_distance (x1 x2 : tensor dual) : result (tensor dual) :=
  diff <- tsub x1 x2 ;;
  Ok (norm_last (tmap (fun a => dadd a (dconst eps)) diff)).

End TensorOps.

End Torch.

Import Torch.

(** ** The environment the program runs in

    The random source of [torch], the parameter store of a network and the
    Adam optimizer are collaborators of the program; their state is threaded
    explicitly.  [autograd_ready x] tells whether reverse-mode
    differentiation can start from the entry [x]: it has gradient history
    and its graph has not been freed. *)

Class Runtime `{GradSpace} : Type := {
  RNG : Type;
  randn : RNG -> R * RNG;
  Params : Type;
  OptState : Type;
  adam_init : Params -> R -> OptState;
  adam_step : OptState -> Params -> option Grad -> OptState * Params;
  autograd_ready : Torch.dual -> bool
}.

(** ** [torch.distributions.Normal] *)

Section Distributions.

Context `{Runtime}.

Record Normal : Type := mkNormal { loc : tensor dual; scale : tensor dual }.

(** [Normal(loc, scale)]: the arguments are broadcast against each other and
    the scale is validated to be positive. *)
Definition Normal_init (loc scale : tensor dual) : result Normal :=
  loc' <- broadcast2 (dconst 0) (fun a _ => a) loc scale ;;
  scale' <- broadcast2 (dconst 0) (fun _ b => b) loc scale ;;
  if forallb (fun s => Rpositive (val s)) (data scale')
  then Ok (mkNormal loc' scale')
  else Raise ValueError.

(** [d.mean] *)
Definition Normal_mean (d : Normal) : tensor dual := loc d.

Fixpoint draw (rng : RNG) (ls : list (R * R)) : list R * RNG :=
  match ls with
  | [] => ([], rng)
  | (m, s) :: ls' =>
      let '(z, rng1) := randn rng in
      let '(xs, rng2) := draw rng1 ls' in
      ((m + s * z) :: xs, rng2)
  end.

(** [d.sample()]: drawn without gradient history, consuming the random
    source. *)
Definition Normal_sample (d : Normal) (rng : RNG) : tensor R * RNG :=
  let '(xs, rng') :=
    draw rng (combine (map val (data (loc d))) (map val (data (scale d)))) in
  (T (shape (loc d)) xs, rng').

(** [d.log_prob(value)] *)
Definition Normal_log_prob (d : Normal) (value : tensor R) : result (tensor dual) :=
  let var := tmap (dlift (fun u => u * u) (fun u => 2 * u)) (scale d) in
  let log_scale := tmap dlog (scale d) in
  diff <- tsub (constant value) (loc d) ;;
  let sq := tmap (dlift (fun u => u * u) (fun u => 2 * u)) diff in
  q <- tdiv (tneg sq) (tmap (dmul (dconst 2)) var) ;;
  a <- tsub q log_scale ;;
  Ok (tmap (fun x => dsub x (dconst (ln (sqrt (2 * PI))))) a).

(** The Python values the agent handles. *)
Inductive value : Type :=
| VNormal (d : Normal)
| VTensor (t : tensor dual)
| VMethod (self : tensor dual) (name : string)
| VNone.

(** [a, b = v] for a tuple [v]. *)
Definition unpack2 (v : list value) : result (value * value) :=
  match v with
  | [a; b] => Ok (a, b)
  | _ => Raise ValueError
  end.

(** [v.mean] *)
Definition attr_mean (v : value) : result value :=
  match v with
  | VNormal d => Ok (VTensor (Normal_mean d))
  | VTensor t => Ok (VMethod t "mean")
  | _ => Raise (AttributeError "mean")
  end.

(** [v.squeeze()] *)
Definition value_squeeze (v : value) : result (tensor dual) :=
  match v with
  | VTensor t => Ok (squeeze t)
  | _ => Raise (AttributeError "squeeze")
  end.

End Distributions.

(** ** The [Policy] network *)

Module PolicyNet.

Section PolicyNet.

Context `{Runtime}.

(** What an attribute of the module object holds. *)
Inductive attr : Type :=
| AInt (n : nat)
| AModule (f : tensor dual -> result (tensor dual))
| ALSTM (f : tensor dual -> result (tensor dual * (tensor dual * tensor dual)))
| AFunction (f : tensor dual -> tensor dual)
| AParameter (t : tensor dual).

(** The module object: its attributes in assignment order, latest first. *)
Definition Policy : Type := list (string * attr).

Definition setattr (self : Policy) (name : string) (a : attr) : Policy :=
  (name, a) :: self.

Fixpoint getattr (self : Policy) (name : string) : result attr :=
  match self with
  | [] => Raise (AttributeError name)
  | (n, a) :: self' => if String.eqb n name then Ok a else getattr self' name
  end.

(** Calling an attribute as a layer on one tensor. *)
Definition call (a : attr) (x : tensor dual) : result (tensor dual) :=
  match a with
  | AModule f => f x
  | AFunction f => Ok (f x)
  | _ => Raise TypeError
  end.

Definition call_lstm (a : attr) (x : tensor dual)
  : result (tensor dual * (tensor dual * tensor dual)) :=
  match a with
  | ALSTM f => f x
  | _ => Raise TypeError
  end.

Definition as_tensor (a : attr) : result (tensor dual) :=
  match a with
  | AParameter t => Ok t
  | _ => Raise TypeError
  end.

(** The trainable layers as [torch] builds them for the given sizes, with
    the weights [init_weights] draws. *)
Record Layers : Type := mkLayers {
  Linear_embedding : tensor dual -> result (tensor dual);
  Linear_fc1 : tensor dual -> result (tensor dual);
  LSTM_ac : tensor dual -> result (tensor dual * (tensor dual * tensor dual));
  Linear_fc2_actor : tensor dual -> result (tensor dual);
  Linear_fc2_critic : tensor dual -> result (tensor dual);
  sigma_init : tensor dual
}.

(** [Policy.__init__] *)
Definition Policy_init (state_space action_space : nat) (l : Layers) : Policy :=
  let self := [] in
  let self := setattr self "state_space" (AInt state_space) in
  let self := setattr self "action_space" (AInt action_space) in
  let self := setattr self "hidden" (AInt 64) in
  let self := setattr self "tanh" (AFunction (tmap dtanh)) in
  let self := setattr self "embedding_ac" (AModule (Linear_embedding l)) in
  let self := setattr self "relu" (AFunction (tmap drelu)) in
  let self := setattr self "fc1_ac" (AModule (Linear_fc1 l)) in
  let self := setattr self "lstm_ac" (ALSTM (LSTM_ac l)) in
  let self := setattr self "fc2_actor" (AModule (Linear_fc2_actor l)) in
  let self := setattr self "fc2_critic" (AModule (Linear_fc2_critic l)) in
  let self := setattr self "sigma_activation" (AFunction (tmap dsoftplus)) in
  let self := setattr self "sigma" (AParameter (sigma_init l)) in
  self.

(** [Policy.forward] *)
Definition forward (self : Policy) (x : tensor dual) : result (list value) :=
  embedding_ac <- getattr self "embedding_ac" ;;
  x <- call embedding_ac x ;;
  x <- sum_dim1 x ;;
  relu <- getattr self "relu" ;;
  x <- call relu x ;;
  fc1_ac <- getattr self "fc1_ac" ;;
  x <- call fc1_ac x ;;
  relu <- getattr self "relu" ;;
  x <- call relu x ;;
  lstm_ac <- getattr self "lstm_ac" ;;
  '(x, _) <- call_lstm lstm_ac (unsqueeze0 x) ;;
  fc2_actor <- getattr self "fc2_actor" ;;
  action_mean <- call fc2_actor (squeeze0 x) ;;
  sigma_activation <- getattr self "sigma_activation" ;;
  sigma <- getattr self "sigma" ;;
  sigma <- as_tensor sigma ;;
  action_sigma <- call sigma_activation sigma ;;
  normal_dist <- Normal_init action_mean action_sigma ;;
  fc3_critic <- getattr self "fc3_critic" ;;
  value <- call fc3_critic (squeeze0 x) ;;
  Ok [VNormal normal_dist].

End PolicyNet.

End PolicyNet.

(** ** What a caller hands to [store_outcome]

    A state is converted with [torch.from_numpy] and a reward with
    [torch.Tensor([reward])]; an argument that is not an array, or not a
    number, makes the conversion raise [TypeError]. *)

Inductive array_like : Type :=
| NdArray (t : tensor R)
| NotAnArray.

Inductive number_like : Type :=
| Number (x : R)
| NotANumber.

Definition from_numpy (a : array_like) : result (tensor R) :=
  match a with
  | NdArray t => Ok t
  | NotAnArray => Raise TypeError
  end.

Definition number_of (x : number_like) : result R :=
  match x with
  | Number r => Ok r
  | NotANumber => Raise TypeError
  end.

(** ** The [Agent] *)

Section AgentModel.

Context `{Runtime}.

(** The agent object.  [policy] is the network handed to the constructor,
    seen as a function of its parameters; [parameters] and [param_grad] are
    the parameter values and their accumulated [.grad]; each entry of
    [rewards] is held as the one-element tensor [torch.Tensor([reward])]. *)
Record Agent : Type := mkAgent {
  policy : Params -> tensor R -> result (list value);
  parameters : Params;
  param_grad : option Grad;
  optimizer : OptState;
  gamma : R;
  states : list (tensor R);
  next_states : list (tensor R);
  action_log_probs : list (tensor dual);
  rewards : list R;
  done : list bool
}.

(** [Agent.__init__] *)
Definition Agent_init (policy : Params -> tensor R -> result (list value))
  (parameters : Params) : Agent :=
  mkAgent policy parameters None (adam_init parameters (1 / 1000))
          (99 / 100) [] [] [] [] [].

(** [self.policy(x)] *)
Definition call_policy (self : Agent) (x : tensor R) : result (list value) :=
  policy self (parameters self) x.

(** Methods that mutate the agent: the object after the call, and the
    outcome.  An exception leaves the mutations made so far in place. *)
Definition method (A : Type) : Type := Agent -> Agent * result A.

Definition ret {A : Type} (a : A) : method A := fun self => (self, Ok a).

Definition seq_method {A B : Type} (m : method A) (k : A -> method B) : method B :=
  fun self =>
    match m self with
    | (self', Ok a) => k a self'
    | (self', Raise e) => (self', Raise e)
    end.

Definition lift {A : Type} (m : result A) : method A := fun self => (self, m).

Definition this : method Agent := fun self => (self, Ok self).

Notation "x <~ m ;; k" := (seq_method m (fun x => k))
  (at level 61, m at next level, right associativity).
Notation "' p <~ m ;; k" := (seq_method m (fun p => k))
  (at level 61, p pattern, m at next level, right associativity).

(** [torch.Tensor([reward])] *)
Definition reward_tensor (reward : R) : tensor R := T [1%nat] [reward].

(** [torch.Tensor(self.done)] *)
Definition done_tensor (done : list bool) : tensor R :=
  T [length done] (map (fun b : bool => if b then 1 else 0) done).

(** The five [append] calls of [store_outcome]. *)
Definition append_state (t : tensor R) : method unit :=
  fun self =>
    (mkAgent (policy self) (parameters self) (param_grad self) (optimizer self)
             (gamma self) (states self ++ [t]) (next_states self)
             (action_log_probs self) (rewards self) (done self),
     Ok tt).

Definition append_next_state (t : tensor R) : method unit :=
  fun self =>
    (mkAgent (policy self) (parameters self) (param_grad self) (optimizer self)
             (gamma self) (states self) (next_states self ++ [t])
             (action_log_probs self) (rewards self) (done self),
     Ok tt).

Definition append_action_log_prob (t : tensor dual) : method unit :=
  fun self =>
    (mkAgent (policy self) (parameters self) (param_grad self) (optimizer self)
             (gamma self) (states self) (next_states self)
             (action_log_probs self ++ [t]) (rewards self) (done self),
     Ok tt).

Definition append_reward (r : R) : method unit :=
  fun self =>
    (mkAgent (policy self) (parameters self) (param_grad self) (optimizer self)
             (gamma self) (states self) (next_states self)
             (action_log_probs self) (rewards self ++ [r]) (done self),
     Ok tt).

Definition append_done (d : bool) : method unit :=
  fun self =>
    (mkAgent (policy self) (parameters self) (param_grad self) (optimizer self)
             (gamma self) (states self) (next_states self)
             (action_log_probs self) (rewards self) (done self ++ [d]),
     Ok tt).

(** [Agent.store_outcome]: each argument is converted and appended in turn,
    so a conversion that raises leaves the earlier appends in place. *)
Definition store_outcome (state next_state : array_like)
  (action_log_prob : tensor dual) (reward : number_like) (d : bool) : method unit :=
  t <~ lift (from_numpy state) ;;
  _ <~ append_state t ;;
  t <~ lift (from_numpy next_state) ;;
  _ <~ append_next_state t ;;
  _ <~ append_action_log_prob action_log_prob ;;
  r <~ lift (number_of reward) ;;
  _ <~ append_reward r ;;
  append_done d.

(** The rollout as stacked tensors. *)
Record Rollout : Type := mkRollout {
  r_action_log_probs : tensor dual;
  r_states : tensor R;
  r_next_states : tensor R;
  r_rewards : tensor R;
  r_done : tensor R
}.

(** The first five statements of [update_policy]: stack the buffers. *)
Definition drain (self : Agent) : result Rollout :=
  action_log_probs <- stack (action_log_probs self) ;;
  let action_log_probs := squeeze_last action_log_probs in
  states <- stack (states self) ;;
  let states := squeeze_last states in
  next_states <- stack (next_states self) ;;
  let next_states := squeeze_last next_states in
  rewards <- stack (map reward_tensor (rewards self)) ;;
  let rewards := squeeze_last rewards in
  let done := done_tensor (done self) in
  Ok (mkRollout action_log_probs states next_states rewards done).

(** [self.states, ..., self.done = [], [], [], [], []] *)
Definition clear_buffers : method unit :=
  fun self =>
    (mkAgent (policy self) (parameters self) (param_grad self) (optimizer self)
             (gamma self) [] [] [] [] [],
     Ok tt).

Record Losses : Type := mkLosses {
  actor_loss : tensor dual;
  critic_loss : tensor dual;
  loss : tensor dual
}.

(** The loss computation of [update_policy], from the discounted returns to
    the total loss.  The stacked rewards are one-dimensional (each buffered
    reward is a one-element tensor), so their entries are the reward
    sequence [discount_rewards] walks over, and the returns take their
    shape ([zeros_like]). *)
Definition compute_losses (self : Agent) (ro : Rollout) : result Losses :=
  G <- discount_rewards (data (r_rewards ro)) (gamma self) ;;
  let discounted_returns := constant (T (shape (r_rewards ro)) G) in
  out <- call_policy self (r_states ro) ;;
  '(_, values) <- unpack2 out ;;
  out <- call_policy self (r_next_states ro) ;;
  '(_, next_values) <- unpack2 out ;;
  v <- value_squeeze values ;;
  advantages <- tsub discounted_returns v ;;
  p <- tmul (r_action_log_probs ro) (detach advantages) ;;
  let actor_loss := tneg (mean p) in
  v <- value_squeeze values ;;
  u <- unsqueeze1 discounted_returns ;;
  d <- pairwise_distance v u ;;
  let critic_loss := mean d in
  loss <- tadd actor_loss critic_loss ;;
  Ok (mkLosses actor_loss critic_loss loss).

(** [self.optimizer.zero_grad()] *)
Definition zero_grad : method unit :=
  fun self =>
    (mkAgent (policy self) (parameters self) None (optimizer self)
             (gamma self) (states self) (next_states self)
             (action_log_probs self) (rewards self) (done self),
     Ok tt).

(** [loss.backward()]: the loss must be a single entry that autograd can
    differentiate (it has gradient history and a live graph), else
    [RuntimeError]; its gradient is accumulated into the parameters'
    [.grad]. *)
Definition backward (l : tensor dual) : method unit :=
  fun self =>
    match item l with
    | Raise e => (self, Raise e)
    | Ok x =>
        if autograd_ready x then
          let g := match param_grad self with
                   | None => grad x
                   | Some g0 => gadd g0 (grad x)
                   end in
          (mkAgent (policy self) (parameters self) (Some g) (optimizer self)
                   (gamma self) (states self) (next_states self)
                   (action_log_probs self) (rewards self) (done self),
           Ok tt)
        else (self, Raise RuntimeError)
    end.

(** [self.optimizer.step()] *)
Definition step : method unit :=
  fun self =>
    let '(opt, params) :=
      adam_step (optimizer self) (parameters self) (param_grad self) in
    (mkAgent (policy self) params (param_grad self) opt
             (gamma self) (states self) (next_states self)
             (action_log_probs self) (rewards self) (done self),
     Ok tt).

(** [Agent.update_policy] *)
Definition update_policy : method unit :=
  self <~ this ;;
  ro <~ lift (drain self) ;;
  _ <~ clear_buffers ;;
  l <~ lift (compute_losses self ro) ;;
  _ <~ zero_grad ;;
  _ <~ backward (loss l) ;;
  _ <~ step ;;
  ret tt.

(** [Agent.get_action]: the outcome and the random source after the call.
    The state array is taken as the tensor [torch.from_numpy] makes of it. *)
Definition get_action (self : Agent) (state : tensor R) (evaluation : bool)
  (rng : RNG) : result (value * value) * RNG :=
  let x := state in
  match out <- call_policy self x ;; unpack2 out with
  | Raise e => (Raise e, rng)
  | Ok (normal_dist, _) =>
      if evaluation then
        (m <- attr_mean normal_dist ;; Ok (m, VNone), rng)
      else
        match normal_dist with
        | VNormal d =>
            let '(action, rng') := Normal_sample d rng in
            (lp <- Normal_log_prob d action ;;
             Ok (VTensor (constant action), VTensor (sum lp)), rng')
        | _ => (Raise (AttributeError "sample"), rng)
        end
  end.

End AgentModel.

(** The repository's own network as the agent's policy: the parameters are
    the layers with their current weights. *)
Definition repository_policy `{GradSpace} `{!Runtime}
  (state_space action_space : nat)
  (to_layers : Params -> PolicyNet.Layers) (params : Params) (x : tensor R)
  : result (list value) :=
  PolicyNet.forward (PolicyNet.Policy_init state_space action_space (to_layers params))
                    (constant x).

(** ** Closed forms of the two losses

    [policy_gradient_loss] is the actor loss of the specification,
    [-mean(action_log_probs * advantages)] with [advantages = G - values]
    taken as plain numbers; [distance_rows] lists the entries of the
    pairwise distance the critic loss averages. *)

Definition Rsum (l : list R) : R := fold_right Rplus 0 l.

Section LossForms.

Context `{GradSpace}.

Definition policy_gradient_loss (lps : list dual) (G values : list R) : dual :=
  let N := length lps in
  dneg (ddiv (dsum (map (fun k => dmul (nth k lps (dconst 0))
                                       (dconst (nth k G 0 - nth k values 0)))
                        (seq 0 N)))
             (dconst (INR N))).

Definition distance_rows (vs : list dual) (G : list R) : list dual :=
  let N := length G in
  map (fun i =>
         dnorm2 (map (fun j => dadd (dsub (nth j vs (dconst 0)) (dconst (nth i G 0)))
                                    (dconst eps))
                     (seq 0 N)))
      (seq 0 N).

End LossForms.

(** ** Predicates on agents and rollouts *)

Section RolloutPredicates.

Context `{Runtime}.

Definition buffers_empty (self : Agent) : Prop :=
  states self = [] /\ next_states self = [] /\ action_log_probs self = [] /\
  rewards self = [] /\ done self = [].

(** A rollout of [N >= 1] steps whose log-probabilities are tensors without
    dimensions, under a policy that returns a pair with a column of [N]
    value estimates. *)
Record well_formed (self : Agent) (ro : Rollout) (N : nat)
  (lps : list dual) (rs : list R) (vs : list dual) : Prop := {
  wf_steps : (1 <= N)%nat;
  wf_lps : length lps = N;
  wf_rs : length rs = N;
  wf_vs : length vs = N;
  wf_log_probs : r_action_log_probs ro = squeeze_last (T [N] lps);
  wf_rewards : r_rewards ro = T [N] rs;
  wf_values : exists d, call_policy self (r_states ro)
                        = Ok [d; VTensor (T [N; 1%nat] vs)];
  wf_next_values : exists d nv, call_policy self (r_next_states ro) = Ok [d; nv]
}.



(** The agent after [self.states, ..., self.done = [], [], [], [], []]. *)
Definition cleared (self : Agent) : Agent := fst (clear_buffers self).

(** The statements of [update_policy] after the losses. *)
Definition optimizer_step (l : Losses) : method unit :=
  seq_method zero_grad (fun _ =>
  seq_method (backward (loss l)) (fun _ =>
  seq_method step (fun _ => ret tt))).

End RolloutPredicates.

(** ** A small runtime on which the model runs on concrete inputs

    One real parameter: gradients are real numbers, the optimizer is a plain
    gradient step, and the random source is a counter. *)

Module Concrete.

#[local] Instance grad_space : GradSpace :=
  {| Grad := R; gzero := 0; gadd := Rplus; gscale := Rmult |}.

#[local] Instance runtime : Runtime :=
  {| RNG := nat;
     randn := fun k => (INR k, S k);
     Params := R;
     OptState := nat;
     adam_init := fun _ _ => 0%nat;
     adam_step := fun o p g =>
                    (S o, match g with Some g => p - g / 1000 | None => p end);
     autograd_ready := fun _ => true |}.

(** A tensor without dimensions holding [x]. *)
Definition scalar (x : R) : tensor dual := T [] [D x 1].

(** A policy whose value head returns the column [values[i] + p] for the
    parameter [p], and whose action distribution is centred at [p]. *)
Definition table_policy (values : list R) (p : R) (x : tensor R)
  : result (list value) :=
  Ok [VNormal (mkNormal (T [1%nat] [D p 1]) (T [1%nat] [D 1 0]));
      VTensor (T [length values; 1%nat] (map (fun v => D (v + p) 1) values))].

(** A policy that raises on every input. *)
Definition failing_policy (p : R) (x : tensor R) : result (list value) :=
  Raise ValueError.

(** An agent that has buffered one transition per reward, with the given
    next states and done flags. *)
Definition buffered_agent (policy : R -> tensor R -> result (list value))
  (rewards : list R) (next_states : list (tensor R)) (done : list bool) : Agent :=
  mkAgent policy 0 None 0%nat (99 / 100)
          (map (fun _ => T [2%nat] [0; 0]) rewards)
          next_states
          (map (fun _ => scalar 0) rewards)
          rewards
          done.

Definition rollout_agent (values rewards : list R) : Agent :=
  buffered_agent (table_policy values) rewards
                 (map (fun _ => T [2%nat] [0; 0]) rewards)
                 (map (fun _ => true) rewards).

(** What [rollout_agent] drains into. *)
Definition rollout_of (rewards : list R) : Rollout :=
  let N := length rewards in
  mkRollout (squeeze_last (T [N] (map (fun _ => D 0 1) rewards)))
            (T [N; 2%nat] (concat (map (fun _ => [0; 0]) rewards)))
            (T [N; 2%nat] (concat (map (fun _ => [0; 0]) rewards)))
            (T [N] rewards)
            (T [N] (map (fun _ => 1) rewards)).

Definition empty_agent : Agent := Agent_init (table_policy []) 0.




(** An agent with one buffered step whose policy raises. *)
Definition agent_with_failing_policy : Agent :=
  buffered_agent failing_policy [1] [T [2%nat] [0; 0]] [true].

(** Layers that hand their input on unchanged. *)
Definition identity_layers : PolicyNet.Layers :=
  PolicyNet.mkLayers Ok Ok (fun x => Ok (x, (x, x))) Ok Ok (T [1%nat] [D (1 / 2) 1]).

(** The module object of [__init__] with the critic head also bound to the
    name [forward] looks up. *)
Definition patched_policy : PolicyNet.Policy :=
  PolicyNet.setattr (PolicyNet.Policy_init 1 1 identity_layers) "fc3_critic"
    (PolicyNet.AModule (PolicyNet.Linear_fc2_critic identity_layers)).

End Concrete.

(** ** Further notions: layers, draws and sequences of calls *)

Section FurtherNotions.

Context `{Runtime}.



(** One environment step as the caller reports it to [store_outcome], with
    arguments that convert. *)
Record transition : Type := mkTransition {
  t_state : tensor R;
  t_next_state : tensor R;
  t_action_log_prob : tensor dual;
  t_reward : R;
  t_done : bool
}.

(** What a caller does to an agent: report a step (with arguments known to
    convert, or with any arguments), or ask for an update. *)
Inductive operation : Type :=
| Store (t : transition)
| StoreRaw (state next_state : array_like) (action_log_prob : tensor dual)
           (reward : number_like) (d : bool)
| Update.

Definition perform (self : Agent) (op : operation) : Agent :=
  match op with
  | Store t =>
      fst (store_outcome (NdArray (t_state t)) (NdArray (t_next_state t))
                         (t_action_log_prob t) (Number (t_reward t)) (t_done t) self)
  | StoreRaw state next_state action_log_prob reward d =>
      fst (store_outcome state next_state action_log_prob reward d self)
  | Update => fst (update_policy self)
  end.


Definition run (ops : list operation) (self : Agent) : Agent :=
  fold_left perform ops self.


End FurtherNotions.

(** ** Further concrete agents *)

Module Examples.

Import Concrete.

#[local] Existing Instance Concrete.grad_space.
#[local] Existing Instance Concrete.runtime.

(** An agent whose policy is the repository's network (with layers that
    hand their input on), holding one buffered step. *)
Definition agent_with_Policy : Agent :=
  buffered_agent (repository_policy 1 1 (fun _ => identity_layers))
                 [1] [T [2%nat] [0; 0]] [true].

(** An agent whose two buffered states have different shapes. *)
Definition ragged_agent : Agent :=
  mkAgent (table_policy [0; 0]) 0 None 0%nat (99 / 100)
          [T [2%nat] [0; 0]; T [1%nat] [0]]
          [T [2%nat] [0; 0]; T [2%nat] [0; 0]]
          [scalar 0; scalar 0] [1; 1] [false; true].

(** Two reported steps. *)
Definition two_transitions : list transition :=
  [mkTransition (T [2%nat] [1; 2]) (T [2%nat] [3; 4]) (scalar 5) 6 false;
   mkTransition (T [2%nat] [3; 4]) (T [2%nat] [7; 8]) (scalar 9) 10 true].

End Examples.

(** * Properties *)

(** Equality of two explicit lists of reals, entry by entry. *)
Ltac list_R :=
  repeat (match goal with
          | |- cons _ _ = cons _ _ => apply (f_equal2 (@cons R)); [lra|]
          end);
  try reflexivity.

(** ** Facts about subscripting and loops *)

Lemma getitem_skipn {A : Type} (l : list A) (k : nat) (x : A) (rest : list A) :
  skipn k l = x :: rest -> getitem l k = Ok x /\ skipn (S k) l = rest.
Proof.
  revert l; induction k as [|k IH]; intros [|y l] H; simpl in H; try discriminate.
  - inversion H; subst; split; reflexivity.
  - destruct (IH l H) as [H1 H2]. split; [exact H1 | exact H2].
Qed.

Lemma skipn_cons_of_lt {A : Type} (l : list A) (k : nat) :
  (k < length l)%nat -> exists x, skipn k l = x :: skipn (S k) l.
Proof.
  revert l; induction k as [|k IH]; intros [|y l] H; simpl in H; try lia.
  - exists y; reflexivity.
  - destruct (IH l) as [x Hx]; [lia|]. exists x. exact Hx.
Qed.

Lemma setitem_app {A : Type} (pre : list A) (y x : A) (post : list A) :
  setitem (pre ++ y :: post) (length pre) x = Ok (pre ++ x :: post).
Proof.
  unfold setitem.
  assert (Hlt : (length pre <? length (pre ++ y :: post))%nat = true).
  { apply Nat.ltb_lt. rewrite length_app; simpl; lia. }
  rewrite Hlt. f_equal.
  induction pre as [|p pre IH]; simpl; [reflexivity|].
  f_equal. apply IH.
  apply Nat.ltb_lt. rewrite length_app; simpl; lia.
Qed.

Lemma repeat_snoc {A : Type} (x : A) (k : nat) :
  repeat x (S k) = repeat x k ++ [x].
Proof.
  induction k as [|k IH]; [reflexivity|].
  simpl in *. now rewrite <- IH.
Qed.

Lemma reversed_range_S (k : nat) :
  reversed_range (S k) = k :: reversed_range k.
Proof.
  unfold reversed_range. rewrite seq_S, rev_app_distr. reflexivity.
Qed.

Lemma setitem_length {A : Type} (l l' : list A) (t : nat) (x : A) :
  setitem l t x = Ok l' -> length l' = length l.
Proof.
  unfold setitem. destruct (t <? length l)%nat eqn:Hlt; [|discriminate].
  apply Nat.ltb_lt in Hlt. intros H; injection H as H.
  change (firstn t l ++ x :: skipn (S t) l = l') in H. subst l'.
  rewrite length_app. cbn [length]. rewrite length_firstn, length_skipn. lia.
Qed.

Lemma setitem_in_range {A : Type} (l : list A) (t : nat) (x : A) :
  (t < length l)%nat -> exists l', setitem l t x = Ok l'.
Proof.
  intros H. unfold setitem. apply Nat.ltb_lt in H. rewrite H. eauto.
Qed.

Lemma getitem_nth {A : Type} (l : list A) (t : nat) (d : A) :
  (t < length l)%nat -> getitem l t = Ok (nth t l d).
Proof.
  intros H. unfold getitem. now rewrite (nth_error_nth' l d H).
Qed.

Lemma getitem_out_of_range {A : Type} (l : list A) (t : nat) :
  (length l <= t)%nat -> getitem l t = Raise IndexError.
Proof.
  intros H. unfold getitem. apply nth_error_None in H. now rewrite H.
Qed.

(** ** The plain discounted returns *)

Section DiscountLoop.

Variables (r : list R) (gamma : R).

Let body := fun (t : nat) '((running_add, discounted_r) : R * list R) =>
  rt <- getitem r t ;;
  let running_add := running_add * gamma + rt in
  discounted_r <- setitem discounted_r t running_add ;;
  Ok (running_add, discounted_r).

Lemma discount_loop_invariant (k : nat) :
  (k <= length r)%nat ->
  for_each (reversed_range k) body
    (hd 0 (returns_spec (skipn k r) gamma),
     repeat 0 k ++ returns_spec (skipn k r) gamma)
  = Ok (hd 0 (returns_spec r gamma), returns_spec r gamma).
Proof.
  induction k as [|k IH]; intros Hk.
  - reflexivity.
  - rewrite reversed_range_S, repeat_snoc, <- app_assoc.
    destruct (skipn_cons_of_lt r k) as [x Hx]; [lia|].
    destruct (getitem_skipn r k x _ Hx) as [Hget _].
    assert (Hlen : length (repeat 0 k) = k) by apply repeat_length.
    specialize (IH ltac:(lia)). rewrite Hx in IH. cbn [returns_spec hd] in IH.
    set (gs := returns_spec (skipn (S k) r) gamma) in *.
    set (g := hd 0 gs) in *.
    cbn [for_each]. unfold body at 1. rewrite Hget. cbn [bind app].
    pose proof (setitem_app (repeat 0 k) 0 (g * gamma + x) gs) as Hs.
    rewrite Hlen in Hs. rewrite Hs. cbn [bind].
    replace (g * gamma + x) with (x + gamma * g) by lra. exact IH.
Qed.

Lemma discount_rewards_refines :
  discount_rewards r gamma = Ok (returns_spec r gamma).
Proof.
  unfold discount_rewards.
  pose proof (discount_loop_invariant (length r) (Nat.le_refl _)) as H.
  rewrite skipn_all in H. simpl in H. rewrite app_nil_r in H.
  fold body. unfold zeros_like. rewrite H. reflexivity.
Qed.

End DiscountLoop.

Lemma returns_spec_length (r : list R) (gamma : R) :
  length (returns_spec r gamma) = length r.
Proof. induction r as [|x xs IH]; simpl; congruence. Qed.

Lemma returns_spec_step (r : list R) (gamma : R) (t : nat) :
  (t < length r)%nat ->
  nth t (returns_spec r gamma) 0
  = nth t r 0 + gamma * nth (S t) (returns_spec r gamma) 0.
Proof.
  revert t; induction r as [|x xs IH]; intros t Ht; simpl in Ht; [lia|].
  destruct t as [|t].
  - cbn [returns_spec nth]. destruct (returns_spec xs gamma); reflexivity.
  - cbn [returns_spec nth]. apply IH; lia.
Qed.

Lemma returns_spec_gamma_zero (r : list R) : returns_spec r 0 = r.
Proof.
  induction r as [|x xs IH]; simpl; [reflexivity|].
  rewrite IH. f_equal. lra.
Qed.

(** ** The bootstrapped returns *)

Section BootstrapLoop.

Variables (r : list R) (gamma : R) (done : list bool) (next_values : list R).

Let body := fun (t : nat) '((running_add, bootstrapped_discounted_r) : R * list R) =>
  d <- getitem done t ;;
  running_add <- (if d : bool then Ok 0
                  else nv <- getitem next_values t ;; Ok (gamma * nv)) ;;
  rt <- getitem r t ;;
  bootstrapped_discounted_r <-
    setitem bootstrapped_discounted_r t (running_add + rt) ;;
  Ok (running_add, bootstrapped_discounted_r).

Let f := bootstrap_at r gamma done next_values.

Lemma bootstrap_body_ok (t : nat) (ra : R) (pre post : list R) (y : R) :
  (t < length r)%nat -> length pre = t ->
  step_indexable done next_values t = true ->
  exists ra', body t (ra, pre ++ y :: post) = Ok (ra', pre ++ f t :: post).
Proof.
  intros Ht Hpre Hok. unfold body, step_indexable in *.
  unfold f, bootstrap_at.
  rewrite (getitem_nth r t 0 Ht).
  unfold getitem.
  destruct (nth_error done t) as [d|] eqn:Hd; [|discriminate].
  rewrite (nth_error_nth _ _ true Hd).
  destruct d; cbn [bind].
  - exists 0. rewrite <- Hpre, setitem_app. cbn [bind].
    rewrite (Rplus_comm 0). reflexivity.
  - destruct (nth_error next_values t) as [v|] eqn:Hv; [|discriminate].
    rewrite (nth_error_nth _ _ 0 Hv). cbn [bind].
    exists (gamma * v). rewrite <- Hpre, setitem_app. cbn [bind].
    rewrite (Rplus_comm (gamma * v)). reflexivity.
Qed.

Lemma bootstrap_body_raises (t : nat) (st : R * list R) :
  step_indexable done next_values t = false ->
  body t st = Raise IndexError.
Proof.
  intros Hbad. destruct st as [ra acc]. unfold body, step_indexable, getitem in *.
  destruct (nth_error done t) as [[|]|]; try discriminate; cbn [bind]; [|reflexivity].
  destruct (nth_error next_values t); [discriminate | reflexivity].
Qed.

Lemma bootstrap_loop_ok (k : nat) :
  (k <= length r)%nat ->
  forallb (step_indexable done next_values) (seq 0 k) = true ->
  forall ra, exists ra',
    for_each (reversed_range k) body
      (ra, repeat 0 k ++ map f (seq k (length r - k)))
    = Ok (ra', map f (seq 0 (length r))).
Proof.
  induction k as [|k IH]; intros Hk Hall ra.
  - exists ra. cbn. now rewrite Nat.sub_0_r.
  - rewrite seq_S, forallb_app in Hall. cbn in Hall.
    apply andb_true_iff in Hall as [Hall Hk_ok].
    rewrite andb_true_r in Hk_ok.
    rewrite reversed_range_S, repeat_snoc, <- app_assoc. cbn [for_each app].
    destruct (bootstrap_body_ok k ra (repeat 0 k) (map f (seq (S k) (length r - S k))) 0)
      as [ra1 Hbody]; [lia | apply repeat_length | exact Hk_ok |].
    rewrite Hbody. cbn [bind].
    destruct (IH ltac:(lia) Hall ra1) as [ra' H]. exists ra'.
    replace (length r - k)%nat with (S (length r - S k)) in H by lia.
    exact H.
Qed.

Lemma bootstrap_loop_raises (k : nat) :
  (k <= length r)%nat ->
  forallb (step_indexable done next_values) (seq 0 k) = false ->
  forall ra acc, length acc = length r ->
    for_each (reversed_range k) body (ra, acc) = Raise IndexError.
Proof.
  induction k as [|k IH]; intros Hk Hbad ra acc Hacc.
  - discriminate.
  - rewrite reversed_range_S. cbn [for_each].
    destruct (step_indexable done next_values k) eqn:Hk_ok.
    + assert (Hsplit : exists pre y post, acc = pre ++ y :: post /\ length pre = k).
      { destruct (skipn_cons_of_lt acc k) as [y Hy]; [lia|].
        exists (firstn k acc), y, (skipn (S k) acc). split.
        - rewrite <- Hy. symmetry. apply firstn_skipn.
        - rewrite length_firstn. lia. }
      destruct Hsplit as (pre & y & post & -> & Hpre).
      destruct (bootstrap_body_ok k ra pre post y) as [ra1 Hbody]; [lia | exact Hpre | exact Hk_ok |].
      rewrite Hbody. cbn [bind]. apply IH; [lia | |].
      * rewrite seq_S, forallb_app in Hbad. cbn in Hbad.
        rewrite Hk_ok in Hbad. cbn in Hbad. now rewrite andb_true_r in Hbad.
      * rewrite length_app in *. cbn [length] in *. exact Hacc.
    + rewrite bootstrap_body_raises by exact Hk_ok. reflexivity.
Qed.

Lemma bootstrapped_ok :
  all_indexable r done next_values = true ->
  bootstrapped_discount_rewards r gamma done next_values
  = Ok (map f (seq 0 (length r))).
Proof.
  intros Hall. unfold bootstrapped_discount_rewards. fold body.
  destruct (bootstrap_loop_ok (length r) (Nat.le_refl _) Hall 0) as [ra' H].
  rewrite Nat.sub_diag in H. cbn [seq map] in H. rewrite app_nil_r in H.
  unfold zeros_like. rewrite H. reflexivity.
Qed.

Lemma bootstrapped_raises :
  all_indexable r done next_values = false ->
  bootstrapped_discount_rewards r gamma done next_values = Raise IndexError.
Proof.
  intros Hbad. unfold bootstrapped_discount_rewards. fold body.
  rewrite (bootstrap_loop_raises (length r) (Nat.le_refl _) Hbad).
  - reflexivity.
  - unfold zeros_like. apply repeat_length.
Qed.

End BootstrapLoop.

Lemma all_indexable_of_long_enough (r : list R) (done : list bool) (next_values : list R) :
  (length r <= length done)%nat -> (length r <= length next_values)%nat ->
  all_indexable r done next_values = true.
Proof.
  intros Hd Hv. unfold all_indexable. apply forallb_forall. intros t Ht.
  apply in_seq in Ht. unfold step_indexable.
  destruct (nth_error done t) as [d|] eqn:Ed.
  - destruct d; [reflexivity|].
    destruct (nth_error next_values t) eqn:Ev; [reflexivity|].
    apply nth_error_None in Ev. lia.
  - apply nth_error_None in Ed. lia.
Qed.

(** ** Properties of the return estimators *)

(** C1. For every reward sequence [r] of length [n] and every discount factor
    [gamma], [discount_rewards] returns a sequence [G] of length [n] with
    [G[t] = r[t] + gamma * G[t+1]] for every step [t < n], under the boundary
    convention [G[n] = 0]; so the last entry is the last reward, and with
    [gamma = 0] the result is the reward sequence itself. *)
Theorem discount_rewards_recurrence (r : list R) (gamma : R) :
  exists G,
    discount_rewards r gamma = Ok G /\
    length G = length r /\
    nth (length r) G 0 = 0 /\
    (forall t, (t < length r)%nat ->
       nth t G 0 = nth t r 0 + gamma * nth (S t) G 0) /\
    (forall t, S t = length r -> nth t G 0 = nth t r 0) /\
    discount_rewards r 0 = Ok r.
Proof.
  exists (returns_spec r gamma).
  assert (Hlen : length (returns_spec r gamma) = length r)
    by apply returns_spec_length.
  assert (Hend : nth (length r) (returns_spec r gamma) 0 = 0).
  { apply nth_overflow. rewrite Hlen. apply Nat.le_refl. }
  repeat split.
  - apply discount_rewards_refines.
  - exact Hlen.
  - exact Hend.
  - intros t Ht. now apply returns_spec_step.
  - intros t Ht. rewrite returns_spec_step by lia.
    rewrite Ht, Hend. lra.
  - rewrite discount_rewards_refines. f_equal. apply returns_spec_gamma_zero.
Qed.

Lemma discount_rewards_recurrence_witness :
  exists G,
    discount_rewards [1; 1; 1] (1/2) = Ok G /\
    nth 0 G 0 = 7/4 /\ nth 1 G 0 = 3/2 /\ nth 2 G 0 = 1.
Proof.
  destruct (discount_rewards_recurrence [1; 1; 1] (1/2))
    as (G & HG & _ & Hend & Hrec & _ & _).
  exists G. split; [exact HG|].
  pose proof (Hrec 0%nat ltac:(simpl; lia)) as H0.
  pose proof (Hrec 1%nat ltac:(simpl; lia)) as H1.
  pose proof (Hrec 2%nat ltac:(simpl; lia)) as H2.
  simpl in *. repeat split; lra.
Defined.

(** C2. For reward, done and next-value sequences of equal length the
    bootstrapped returns are step-local: the entry at step [t] is
    [reward[t] + 0] when [done[t]] holds and
    [reward[t] + gamma * next_value_estimates[t]] otherwise, so it is fixed
    by the three inputs at step [t] alone (no accumulator is chained across
    steps).  On rewards [1,1,1], done [F,F,T], next values [5,5,5] and
    [gamma = 0.9] the result is [5.5, 5.5, 1.0]. *)
Theorem bootstrapped_discount_rewards_step_local :
  (forall (r : list R) (gamma : R) (done : list bool) (next_values : list R),
     length done = length r -> length next_values = length r ->
     exists B,
       bootstrapped_discount_rewards r gamma done next_values = Ok B /\
       length B = length r /\
       forall t, (t < length r)%nat ->
         nth t B 0 = nth t r 0
                     + (if nth t done true then 0 else gamma * nth t next_values 0)) /\
  (forall (gamma : R) (r r' : list R) (done done' : list bool)
          (next_values next_values' : list R) (B B' : list R) (t : nat),
     length done = length r -> length next_values = length r ->
     length done' = length r' -> length next_values' = length r' ->
     bootstrapped_discount_rewards r gamma done next_values = Ok B ->
     bootstrapped_discount_rewards r' gamma done' next_values' = Ok B' ->
     (t < length r)%nat -> (t < length r')%nat ->
     nth t r 0 = nth t r' 0 -> nth t done true = nth t done' true ->
     nth t next_values 0 = nth t next_values' 0 ->
     nth t B 0 = nth t B' 0) /\
  bootstrapped_discount_rewards [1; 1; 1] (9/10) [false; false; true] [5; 5; 5]
  = Ok [1 + 9/10 * 5; 1 + 9/10 * 5; 1 + 0] /\
  [1 + 9/10 * 5; 1 + 9/10 * 5; 1 + 0] = [11/2; 11/2; 1].
Proof.
  assert (Hmain : forall r gamma done next_values,
    length done = length r -> length next_values = length r ->
    bootstrapped_discount_rewards r gamma done next_values
    = Ok (map (bootstrap_at r gamma done next_values) (seq 0 (length r)))).
  { intros r gamma done nv Hd Hv. apply bootstrapped_ok.
    apply all_indexable_of_long_enough; lia. }
  assert (Hnth : forall r gamma done nv t, (t < length r)%nat ->
    nth t (map (bootstrap_at r gamma done nv) (seq 0 (length r))) 0
    = bootstrap_at r gamma done nv t).
  { intros r gamma done nv t Ht.
    rewrite (nth_indep _ 0 (bootstrap_at r gamma done nv 0%nat))
      by (rewrite length_map, length_seq; exact Ht).
    rewrite map_nth, seq_nth by exact Ht. reflexivity. }
  split; [|split; [|split]].
  - intros r gamma done nv Hd Hv. eexists. split; [now apply Hmain|]. split.
    + now rewrite length_map, length_seq.
    + intros t Ht. now rewrite Hnth.
  - intros gamma r r' done done' nv nv' B B' t Hd Hv Hd' Hv' HB HB' Ht Ht' Er Ed Ev.
    rewrite Hmain in HB, HB' by assumption.
    injection HB as <-. injection HB' as <-.
    rewrite !Hnth by assumption. unfold bootstrap_at. now rewrite Er, Ed, Ev.
  - now rewrite Hmain.
  - list_R.
Qed.

Lemma bootstrapped_discount_rewards_step_local_witness :
  exists B,
    bootstrapped_discount_rewards [2; 3] (1/2) [true; false] [10; 20] = Ok B /\
    nth 0 B 0 = 2 /\ nth 1 B 0 = 13.
Proof.
  destruct bootstrapped_discount_rewards_step_local as (Hpoint & _ & _ & _).
  destruct (Hpoint [2; 3] (1/2) [true; false] [10; 20] eq_refl eq_refl)
    as (B & HB & _ & Hval).
  exists B. split; [exact HB|].
  pose proof (Hval 0%nat ltac:(simpl; lia)) as H0.
  pose proof (Hval 1%nat ltac:(simpl; lia)) as H1.
  cbn [nth] in H0, H1. split; lra.
Defined.

(** C9 as stated fails: the bootstrapped routine compares no lengths, so a
    done sequence longer than the rewards is accepted without any error. *)
Lemma bootstrapped_longer_done_accepted :
  length [1] <> length [false; true] /\
  bootstrapped_discount_rewards [1] (9/10) [false; true] [5]
  = Ok [1 + 9/10 * 5].
Proof.
  split; [simpl; lia|].
  rewrite bootstrapped_ok by reflexivity. reflexivity.
Qed.

(** C9 (amended). The plain routine never raises.  The bootstrapped routine
    makes no length comparison: it raises exactly when some step
    [t < len(rewards)] has no [done[t]], or has [done[t]] false and no
    [next_values[t]], and the exception is then the subscript's
    [IndexError]; in particular equal-length inputs, and inputs whose done
    and next-value sequences are at least as long as the rewards, raise
    nothing. *)
Theorem return_estimators_raise_only_on_missing_steps :
  (forall (r : list R) (gamma : R), exists G, discount_rewards r gamma = Ok G) /\
  (forall (r : list R) (gamma : R) (done : list bool) (next_values : list R),
     (all_indexable r done next_values = true ->
      exists B, bootstrapped_discount_rewards r gamma done next_values = Ok B) /\
     (all_indexable r done next_values = false ->
      bootstrapped_discount_rewards r gamma done next_values = Raise IndexError)) /\
  (forall (r : list R) (done : list bool) (next_values : list R),
     (length r <= length done)%nat -> (length r <= length next_values)%nat ->
     all_indexable r done next_values = true) /\
  (forall (r : list R) (done : list bool) (next_values : list R),
     (length done < length r)%nat ->
     all_indexable r done next_values = false).
Proof.
  split; [|split; [|split]].
  - intros r gamma. eexists. apply discount_rewards_refines.
  - intros r gamma done nv. split; intros H.
    + eexists. now apply bootstrapped_ok.
    + now apply bootstrapped_raises.
  - exact all_indexable_of_long_enough.
  - intros r done nv Hlt. unfold all_indexable.
    destruct (forallb _ _) eqn:E; [|reflexivity].
    rewrite forallb_forall in E.
    specialize (E (length done)). unfold step_indexable in E.
    assert (Hnone : nth_error done (length done) = None)
      by (apply nth_error_None; lia).
    rewrite Hnone in E. symmetry. apply E. apply in_seq. lia.
Qed.

Lemma return_estimators_raise_only_on_missing_steps_witness :
  (exists B, bootstrapped_discount_rewards [1; 2] (1/2) [true; true; false] [] = Ok B) /\
  bootstrapped_discount_rewards [1; 2] (1/2) [true] [7; 7] = Raise IndexError.
Proof.
  destruct return_estimators_raise_only_on_missing_steps as (_ & Hboot & _ & _).
  split.
  - apply (proj1 (Hboot [1; 2] (1/2) [true; true; false] [])). reflexivity.
  - apply (proj2 (Hboot [1; 2] (1/2) [true] [7; 7])). reflexivity.
Defined.

(** ** Facts about the tensor operations *)

Section TorchFacts.

Context {A : Type}.

Lemma shape_eqb_refl (s : list nat) : shape_eqb s s = true.
Proof.
  induction s as [|d s IH]; [reflexivity|].
  cbn. now rewrite Nat.eqb_refl, IH.
Qed.

Lemma stack_uniform (s : list nat) (rows : list (list A)) :
  rows <> [] ->
  stack (map (T s) rows) = Ok (T (length rows :: s) (concat rows)).
Proof.
  destruct rows as [|row rows]; [congruence|]. intros _.
  unfold stack. cbn [map shape].
  assert (Hall : forallb (fun t' : tensor A => shape_eqb s (shape t'))
                   (map (T s) rows) = true).
  { apply forallb_forall. intros t Ht. apply in_map_iff in Ht as (r & <- & _).
    apply shape_eqb_refl. }
  rewrite Hall. cbn [length]. rewrite length_map.
  do 2 f_equal. cbn [concat data]. f_equal.
  rewrite map_map. cbn [data]. now rewrite map_id.
Qed.

Lemma concat_singletons (l : list A) : concat (map (fun x => [x]) l) = l.
Proof. induction l as [|x l IH]; cbn; congruence. Qed.

(** Stacking tensors without dimensions gives the vector of their entries. *)
Lemma stack_scalars (l : list A) :
  l <> [] -> stack (map (fun x => T [] [x]) l) = Ok (T [length l] l).
Proof.
  intros Hl.
  replace (map (fun x => T [] [x]) l) with (map (T []) (map (fun x => [x]) l))
    by (rewrite map_map; reflexivity).
  rewrite stack_uniform by (destruct l; [congruence | discriminate]).
  now rewrite length_map, concat_singletons.
Qed.

(** Stacking one-element vectors gives a column. *)
Lemma stack_singletons (l : list A) :
  l <> [] -> stack (map (fun x => T [1%nat] [x]) l) = Ok (T [length l; 1%nat] l).
Proof.
  intros Hl.
  replace (map (fun x => T [1%nat] [x]) l)
    with (map (T [1%nat]) (map (fun x => [x]) l))
    by (rewrite map_map; reflexivity).
  rewrite stack_uniform by (destruct l; [congruence | discriminate]).
  now rewrite length_map, concat_singletons.
Qed.

Lemma stack_empty : stack (@nil (tensor A)) = Raise RuntimeError.
Proof. reflexivity. Qed.

Lemma map_seq_offset {B : Type} (g : nat -> B) (a n : nat) :
  map g (seq a n) = map (fun j => g (a + j)%nat) (seq 0 n).
Proof.
  revert a; induction n as [|n IH]; intros a; [reflexivity|].
  cbn [seq map]. rewrite Nat.add_0_r. f_equal.
  rewrite IH, <- seq_shift, map_map.
  apply map_ext. intros j. f_equal. lia.
Qed.

Lemma firstn_seq_le (n a len : nat) :
  (n <= len)%nat -> firstn n (seq a len) = seq a n.
Proof.
  revert a len; induction n as [|n IH]; intros a [|len] Hle; cbn; try reflexivity; try lia.
  f_equal. apply IH. lia.
Qed.

(** The [i]-th row of an [n] by [n] table stored row by row. *)
Lemma row_of_table {B : Type} (g : nat -> B) (n i : nat) :
  (i < n)%nat ->
  firstn n (skipn (i * n) (map g (seq 0 (n * n))))
  = map (fun j => g (i * n + j)%nat) (seq 0 n).
Proof.
  intros Hi. rewrite skipn_map, firstn_map, skipn_seq, firstn_seq_le by nia.
  cbn [Nat.add]. apply map_seq_offset.
Qed.

Lemma broadcast2_vec_vec (d : A) (f : A -> A -> A) (n : nat) (da db : list A) :
  broadcast2 d f (T [n] da) (T [n] db)
  = Ok (T [n] (map (fun k => f (nth k da d) (nth k db d)) (seq 0 n))).
Proof.
  unfold broadcast2. cbn [shape data rev app broadcast_rev].
  rewrite Nat.eqb_refl. cbn [rev app numel fold_right]. rewrite Nat.mul_1_r.
  do 2 f_equal. apply map_ext_in. intros k Hk. apply in_seq in Hk.
  cbn [unravel_rev ravel_rev].
  assert (Hidx : ((if (n =? 1)%nat then 0 else k mod n) + n * 0 = k)%nat).
  { destruct (n =? 1)%nat eqn:E.
    - apply Nat.eqb_eq in E. lia.
    - rewrite Nat.mod_small; lia. }
  now rewrite Hidx.
Qed.

Lemma broadcast2_vec_scalar (d : A) (f : A -> A -> A) (n : nat) (da : list A) (y : A) :
  broadcast2 d f (T [n] da) (T [] [y])
  = Ok (T [n] (map (fun k => f (nth k da d) y) (seq 0 n))).
Proof.
  unfold broadcast2. cbn [shape data rev app broadcast_rev].
  cbn [rev app numel fold_right]. rewrite Nat.mul_1_r.
  do 2 f_equal. apply map_ext_in. intros k Hk. apply in_seq in Hk.
  cbn [unravel_rev ravel_rev nth].
  assert (Hidx : ((if (n =? 1)%nat then 0 else k mod n) + n * 0 = k)%nat).
  { destruct (n =? 1)%nat eqn:E.
    - apply Nat.eqb_eq in E. lia.
    - rewrite Nat.mod_small; lia. }
  now rewrite Hidx.
Qed.

Lemma broadcast2_scalar_vec (d : A) (f : A -> A -> A) (n : nat) (x : A) (db : list A) :
  broadcast2 d f (T [] [x]) (T [n] db)
  = Ok (T [n] (map (fun k => f x (nth k db d)) (seq 0 n))).
Proof.
  unfold broadcast2. cbn [shape data rev app broadcast_rev].
  cbn [rev app numel fold_right]. rewrite Nat.mul_1_r.
  do 2 f_equal. apply map_ext_in. intros k Hk. apply in_seq in Hk.
  cbn [unravel_rev ravel_rev nth].
  assert (Hidx : ((if (n =? 1)%nat then 0 else k mod n) + n * 0 = k)%nat).
  { destruct (n =? 1)%nat eqn:E.
    - apply Nat.eqb_eq in E. lia.
    - rewrite Nat.mod_small; lia. }
  now rewrite Hidx.
Qed.

(** A vector of [n >= 2] entries against a column of [n] entries: every
    entry of the vector meets every entry of the column. *)
Lemma broadcast2_vec_column (d : A) (f : A -> A -> A) (n : nat) (da db : list A) :
  (2 <= n)%nat ->
  broadcast2 d f (T [n] da) (T [n; 1%nat] db)
  = Ok (T [n; n]
          (map (fun k => f (nth (k mod n) da d) (nth (k / n) db d))
               (seq 0 (n * n)))).
Proof.
  intros Hn. unfold broadcast2. cbn [shape data rev app broadcast_rev].
  assert (E1 : (n =? 1)%nat = false) by (apply Nat.eqb_neq; lia).
  rewrite E1. cbn [Nat.eqb rev app numel fold_right]. rewrite Nat.mul_1_r.
  do 2 f_equal. apply map_ext_in. intros k Hk. apply in_seq in Hk.
  cbn [unravel_rev ravel_rev Nat.eqb]. rewrite E1.
  assert (Hq : (k / n < n)%nat) by (apply Nat.Div0.div_lt_upper_bound; lia).
  rewrite (Nat.mod_small (k / n) n Hq).
  f_equal; f_equal; lia.
Qed.

End TorchFacts.

(** ** The loss computation on a well-formed rollout *)

Section LossFacts.

Context `{GradSpace}.

Lemma nth_map_seq {B : Type} (g : nat -> B) (n k : nat) (d : B) :
  (k < n)%nat -> nth k (map g (seq 0 n)) d = g k.
Proof.
  intros Hk. rewrite (nth_indep _ d (g 0%nat)) by (now rewrite length_map, length_seq).
  rewrite map_nth, seq_nth by exact Hk. reflexivity.
Qed.

Lemma val_dsum (l : list dual) : val (dsum l) = Rsum (map val l).
Proof.
  unfold dsum, Rsum. induction l as [|a l IH]; [reflexivity|].
  cbn [fold_right map dadd val]. now rewrite IH.
Qed.




(** [discounted_returns - values.squeeze()] on [N] returns and a column of
    [N] values. *)
Lemma advantages_of_column (N : nat) (G : list R) (vs : list dual) :
  (1 <= N)%nat -> length G = N -> length vs = N ->
  tsub (constant (T [N] G)) (squeeze (T [N; 1%nat] vs))
  = Ok (T [N] (map (fun k => dsub (dconst (nth k G 0)) (nth k vs (dconst 0)))
                   (seq 0 N))).
Proof.
  intros HN HG Hvs. unfold tsub, constant, tmap, squeeze. cbn [shape data filter].
  destruct (N =? 1)%nat eqn:E; cbn [negb Nat.eqb].
  - apply Nat.eqb_eq in E. rewrite E in *.
    destruct vs as [|v [|? ?]]; try discriminate.
    rewrite broadcast2_vec_scalar. do 2 f_equal.
    apply map_ext_in. intros k Hk. apply in_seq in Hk.
    assert (k = 0%nat) as -> by lia. cbn [nth].
    now rewrite (map_nth dconst G 0 0).
  - rewrite broadcast2_vec_vec. do 2 f_equal.
    apply map_ext. intros k. now rewrite (map_nth dconst G 0 k).
Qed.

(** [action_log_probs * advantages.detach()] on the stacked log-probabilities
    of [N] steps. *)
Lemma weighted_log_probs (N : nat) (lps adv : list dual) :
  (1 <= N)%nat -> length lps = N ->
  tmul (squeeze_last (T [N] lps)) (detach (T [N] adv))
  = Ok (T [N] (map (fun k => dmul (nth k lps (dconst 0))
                                  (dconst (val (nth k adv (dconst 0)))))
                   (seq 0 N))).
Proof.
  intros HN Hl. unfold tmul, detach, tmap, squeeze_last. cbn [shape data rev app].
  assert (Hnth : forall k,
    nth k (map (fun a : dual => dconst (val a)) adv) (dconst 0)
    = dconst (val (nth k adv (dconst 0)))).
  { intros k. exact (map_nth (fun a : dual => dconst (val a)) adv (dconst 0) k). }
  destruct N as [|[|N]]; [lia| |].
  - destruct lps as [|lp [|? ?]]; try discriminate. cbn [rev].
    rewrite broadcast2_scalar_vec. do 2 f_equal.
    apply map_ext_in. intros k Hk. apply in_seq in Hk.
    assert (k = 0%nat) as -> by lia. cbn [nth]. now rewrite Hnth.
  - rewrite broadcast2_vec_vec. do 2 f_equal.
    apply map_ext. intros k. now rewrite Hnth.
Qed.

(** [F.pairwise_distance(values.squeeze(), discounted_returns.unsqueeze(1))]
    on a column of [N] values and [N] returns. *)
Lemma pairwise_distance_of_column (N : nat) (G : list R) (vs : list dual) :
  (1 <= N)%nat -> length G = N -> length vs = N ->
  pairwise_distance (squeeze (T [N; 1%nat] vs)) (T [N; 1%nat] (map dconst G))
  = Ok (T [N] (distance_rows vs G)).
Proof.
  intros HN HG Hvs. unfold pairwise_distance, tsub, squeeze, distance_rows.
  cbn [shape data filter]. rewrite HG.
  assert (HnthG : forall i, nth i (map dconst G) (dconst 0) = dconst (nth i G 0)).
  { intros i. exact (map_nth dconst G 0 i). }
  destruct (N =? 1)%nat eqn:E; cbn [negb Nat.eqb].
  - apply Nat.eqb_eq in E. rewrite E in *.
    destruct vs as [|v [|? ?]]; try discriminate.
    destruct G as [|g [|? ?]]; try discriminate.
    reflexivity.
  - apply Nat.eqb_neq in E.
    rewrite broadcast2_vec_column by lia. cbn [bind].
    unfold norm_last, tmap. cbn [shape data rev app numel fold_right].
    rewrite Nat.mul_1_r. do 2 f_equal.
    apply map_ext_in. intros i Hi. apply in_seq in Hi. f_equal.
    rewrite map_map, row_of_table by lia.
    apply map_ext_in. intros j Hj. apply in_seq in Hj.
    rewrite Nat.add_comm, Nat.Div0.mod_add, Nat.div_add by lia.
    rewrite Nat.mod_small, Nat.div_small by lia. cbn [Nat.add].
    now rewrite HnthG.
Qed.

End LossFacts.

Section LossAssembly.

Context `{Runtime}.

Lemma tadd_scalars (a b : dual) :
  tadd (T [] [a]) (T [] [b]) = Ok (T [] [dadd a b]).
Proof. reflexivity. Qed.

Lemma compute_losses_well_formed (self : Agent) (ro : Rollout) (N : nat)
  (lps : list dual) (rs : list R) (vs : list dual) :
  well_formed self ro N lps rs vs ->
  let G := returns_spec rs (gamma self) in
  let a := policy_gradient_loss lps G (map val vs) in
  let c := ddiv (dsum (distance_rows vs G)) (dconst (INR N)) in
  compute_losses self ro
  = Ok (mkLosses (T [] [a]) (T [] [c]) (T [] [dadd a c])).
Proof.
  intros [HN Hlps Hrs Hvs Hlp Hrw [d Hv] [d' [nv Hnv]]] G a c.
  assert (HG : length G = N) by (unfold G; now rewrite returns_spec_length).
  unfold compute_losses.
  rewrite Hrw. cbn [data shape]. rewrite discount_rewards_refines. cbn [bind].
  rewrite Hv. cbn [bind unpack2]. rewrite Hnv. cbn [bind unpack2 value_squeeze].
  fold G. rewrite (advantages_of_column N G vs HN HG Hvs). cbn [bind].
  rewrite Hlp, (weighted_log_probs N lps _ HN Hlps). cbn [bind].
  unfold constant at 1, tmap at 1, unsqueeze1. cbn [shape data bind].
  rewrite (pairwise_distance_of_column N G vs HN HG Hvs). cbn [bind].
  unfold mean, tneg, tmap. cbn [data shape map].
  rewrite tadd_scalars. cbn [bind].
  rewrite !length_map, !length_seq.
  assert (Hdist : length (distance_rows vs G) = N).
  { unfold distance_rows. now rewrite length_map, length_seq. }
  rewrite Hdist.
  assert (Ha : dneg (ddiv (dsum
            (map (fun k => dmul (nth k lps (dconst 0))
               (dconst (val (nth k
                  (map (fun k0 => dsub (dconst (nth k0 G 0)) (nth k0 vs (dconst 0)))
                       (seq 0 N)) (dconst 0)))))
               (seq 0 N))) (dconst (INR N))) = a).
  { unfold a, policy_gradient_loss. rewrite Hlps. do 3 f_equal.
    apply map_ext_in. intros k Hk. apply in_seq in Hk.
    rewrite nth_map_seq by lia. cbn [val dsub dconst].
    now rewrite <- (map_nth val vs (dconst 0) k). }
  rewrite Ha. reflexivity.
Qed.

(** The buffers [store_outcome] fills drain into such a rollout. *)
Lemma drain_shapes (self : Agent) (ro : Rollout) (lps : list dual) :
  action_log_probs self = map (fun x => T [] [x]) lps ->
  drain self = Ok ro ->
  lps <> [] /\ rewards self <> [] /\
  r_action_log_probs ro = squeeze_last (T [length lps] lps) /\
  r_rewards ro = T [length (rewards self)] (rewards self) /\
  (exists t, stack (states self) = Ok t /\ r_states ro = squeeze_last t) /\
  (exists t, stack (next_states self) = Ok t /\ r_next_states ro = squeeze_last t).
Proof.
  intros Hlp. unfold drain. rewrite Hlp.
  destruct lps as [|lp lps].
  - cbn. discriminate.
  - rewrite stack_scalars by discriminate. cbn [bind].
    destruct (stack (states self)) as [st|e]; cbn [bind]; [|discriminate].
    destruct (stack (next_states self)) as [nst|e]; cbn [bind]; [|discriminate].
    destruct (rewards self) as [|r rs] eqn:Hr.
    + cbn. discriminate.
    + unfold reward_tensor. rewrite stack_singletons by discriminate. cbn [bind].
      intros Hro. injection Hro as <-. cbn [r_action_log_probs r_rewards r_states r_next_states].
      repeat split; try discriminate; eauto.
Qed.

End LossAssembly.

(** ** The policy network *)

Section PolicyFacts.

Context `{Runtime}.

Import PolicyNet.

(** Peel one statement of a method body: it raises, or the rest decides. *)
Ltac peel :=
  match goal with
  | |- raises (bind ?m _) =>
      let r := fresh "r" in
      destruct m as [r|?]; cbn [bind]; [| eexists; reflexivity]
  end.

Lemma Policy_init_has_no_fc3_critic (state_space action_space : nat) (l : Layers) :
  getattr (Policy_init state_space action_space l) "fc3_critic"
  = Raise (AttributeError "fc3_critic").
Proof. reflexivity. Qed.

Lemma Policy_init_has_fc2_critic (state_space action_space : nat) (l : Layers) :
  getattr (Policy_init state_space action_space l) "fc2_critic"
  = Ok (AModule (Linear_fc2_critic l)).
Proof. reflexivity. Qed.

Lemma Policy_forward_raises (state_space action_space : nat) (l : Layers)
  (x : tensor dual) :
  raises (forward (Policy_init state_space action_space l) x).
Proof.
  unfold forward.
  change (getattr (Policy_init state_space action_space l) "embedding_ac")
    with (Ok (AModule (Linear_embedding l))).
  cbn [bind call]. peel. peel.
  change (getattr (Policy_init state_space action_space l) "relu")
    with (Ok (AFunction (tmap drelu))).
  cbn [bind call].
  change (getattr (Policy_init state_space action_space l) "fc1_ac")
    with (Ok (AModule (Linear_fc1 l))).
  cbn [bind call]. peel.
  change (getattr (Policy_init state_space action_space l) "lstm_ac")
    with (Ok (ALSTM (LSTM_ac l))).
  cbn [bind call_lstm]. peel. destruct r2 as [y hc].
  change (getattr (Policy_init state_space action_space l) "fc2_actor")
    with (Ok (AModule (Linear_fc2_actor l))).
  cbn [bind call]. peel.
  change (getattr (Policy_init state_space action_space l) "sigma_activation")
    with (Ok (AFunction (tmap dsoftplus))).
  change (getattr (Policy_init state_space action_space l) "sigma")
    with (Ok (AParameter (sigma_init l))).
  cbn [bind call as_tensor]. peel.
  rewrite Policy_init_has_no_fc3_critic. cbn [bind].
  eexists. reflexivity.
Qed.

Lemma forward_returns_one_component (self : Policy) (x : tensor dual)
  (out : list value) :
  forward self x = Ok out -> length out = 1%nat.
Proof.
  unfold forward.
  repeat match goal with
         | |- bind ?m _ = Ok _ -> _ =>
             destruct m; cbn [bind]; [| discriminate]
         | |- (let '(_, _) := ?p in _) = Ok _ -> _ => destruct p
         end.
  intros Hout. injection Hout as <-. reflexivity.
Qed.

(** C3 (what the code does).  On the object [__init__] builds, [forward]
    raises for every input: the critic head is looked up as [fc3_critic],
    an attribute that is never assigned ([__init__] binds it as
    [fc2_critic]).  And whatever attributes the object has, a call that
    returns yields a one-component tuple (the distribution), never a
    pair. *)
Theorem Policy_forward_never_returns_a_pair :
  (forall (state_space action_space : nat) (l : Layers) (x : tensor dual),
     raises (forward (Policy_init state_space action_space l) x)) /\
  (forall (state_space action_space : nat) (l : Layers),
     getattr (Policy_init state_space action_space l) "fc3_critic"
     = Raise (AttributeError "fc3_critic") /\
     getattr (Policy_init state_space action_space l) "fc2_critic"
     = Ok (AModule (Linear_fc2_critic l))) /\
  (forall (self : Policy) (x : tensor dual) (out : list value),
     forward self x = Ok out -> length out = 1%nat).
Proof.
  split; [exact Policy_forward_raises|].
  split; [|exact forward_returns_one_component].
  intros state_space action_space l. split; reflexivity.
Qed.

End PolicyFacts.

(** ** The agent: buffers, draining and action selection *)

Section AgentFacts.

Context `{Runtime}.

Lemma update_policy_when_drain_raises (self : Agent) (e : exn) :
  drain self = Raise e -> update_policy self = (self, Raise e).
Proof.
  intros Hd. unfold update_policy, seq_method, this, lift. now rewrite Hd.
Qed.

Lemma update_policy_after_drain (self : Agent) (ro : Rollout) :
  drain self = Ok ro ->
  buffers_empty (fst (update_policy self)) /\
  (forall e, compute_losses self ro = Raise e ->
     snd (update_policy self) = Raise e) /\
  policy (fst (update_policy self)) = policy self /\
  gamma (fst (update_policy self)) = gamma self.
Proof.
  intros Hd. unfold update_policy, seq_method, this, lift. rewrite Hd.
  cbn [clear_buffers].
  destruct (compute_losses self ro) as [l|e]; cbn [zero_grad].
  - unfold backward. cbn [param_grad].
    destruct (item (loss l)) as [x|e]; [destruct (autograd_ready x)|]; cbn.
    + unfold step. cbn [optimizer parameters param_grad].
      match goal with
      | |- context [adam_step ?o ?q ?g] => destruct (adam_step o q g) as [opt params]
      end.
      unfold buffers_empty; cbn. repeat split; try reflexivity. discriminate.
    + unfold buffers_empty; cbn. repeat split; try reflexivity. discriminate.
    + unfold buffers_empty; cbn. repeat split; try reflexivity. discriminate.
  - unfold buffers_empty; cbn. repeat split; try reflexivity.
    intros e' He'. now injection He' as <-.
Qed.

(** C7. The five buffers are cleared by the statement that follows the
    stacking of the buffers, before the returns, the forward passes, the
    losses or the optimizer step: whenever the stacking succeeds, all five
    buffers are empty after the call, whether the call then completes or
    raises (and when a later step raises, that exception is the outcome). *)
Theorem update_policy_clears_buffers_after_drain (self : Agent) (ro : Rollout) :
  drain self = Ok ro ->
  buffers_empty (fst (update_policy self)) /\
  (forall e, compute_losses self ro = Raise e ->
     snd (update_policy self) = Raise e /\
     buffers_empty (fst (update_policy self))).
Proof.
  intros Hd. destruct (update_policy_after_drain self ro Hd) as (Hb & Hr & _).
  split; [exact Hb|]. intros e He. split; [now apply Hr | exact Hb].
Qed.

(** [get_action] in evaluation mode, whatever the policy returns. *)
Lemma get_action_evaluation_unfold (self : Agent) (state : tensor R) (rng : RNG) :
  get_action self state true rng
  = (out <- call_policy self state ;;
     '(normal_dist, _) <- unpack2 out ;;
     m <- attr_mean normal_dist ;;
     Ok (m, VNone), rng).
Proof.
  unfold get_action.
  destruct (call_policy self state) as [out|e]; cbn [bind]; [|reflexivity].
  destruct (unpack2 out) as [[nd v]|e]; reflexivity.
Qed.

(** C10. With [evaluation=True], [get_action] returns the mean of the
    distribution the policy produced, together with [None]; the random
    source is neither read nor advanced, so the outcome is the same whatever
    its state: calls with the same agent (hence the same policy parameters)
    and the same state return the same action. *)
Theorem get_action_evaluation_is_deterministic (self : Agent) (state : tensor R) :
  (forall (d : Normal) (v : value) (rng : RNG),
     call_policy self state = Ok [VNormal d; v] ->
     get_action self state true rng = (Ok (VTensor (loc d), VNone), rng)) /\
  (forall rng : RNG, snd (get_action self state true rng) = rng) /\
  (forall rng1 rng2 : RNG,
     fst (get_action self state true rng1) = fst (get_action self state true rng2)).
Proof.
  split; [|split].
  - intros d v rng Hcall. rewrite get_action_evaluation_unfold, Hcall. reflexivity.
  - intros rng. now rewrite get_action_evaluation_unfold.
  - intros rng1 rng2. now rewrite !get_action_evaluation_unfold.
Qed.

(** With the repository's own network as the policy, every call of
    [get_action] raises, since the forward pass does. *)
Lemma get_action_with_repository_policy_raises
  (state_space action_space : nat) (to_layers : Params -> PolicyNet.Layers)
  (self : Agent) (state : tensor R) (evaluation : bool) (rng : RNG) :
  policy self = repository_policy state_space action_space to_layers ->
  raises (fst (get_action self state evaluation rng)).
Proof.
  intros Hp. unfold get_action, call_policy. rewrite Hp. unfold repository_policy.
  destruct (Policy_forward_raises state_space action_space
              (to_layers (parameters self)) (constant state)) as [e He].
  rewrite He. cbn. exists e. reflexivity.
Qed.

(** A [store_outcome] call whose arguments convert appends one entry to each
    of the five buffers. *)
Lemma store_outcome_appends (self : Agent) (state next_state : tensor R)
  (action_log_prob : tensor dual) (reward : R) (d : bool) :
  let self' := fst (store_outcome (NdArray state) (NdArray next_state)
                                  action_log_prob (Number reward) d self) in
  length (states self') = S (length (states self)) /\
  length (next_states self') = S (length (next_states self)) /\
  length (action_log_probs self') = S (length (action_log_probs self)) /\
  length (rewards self') = S (length (rewards self)) /\
  length (done self') = S (length (done self)).
Proof.
  cbn. rewrite !length_app. cbn. repeat split; lia.
Qed.

(** With the repository's own network as the policy, an update that gets
    past the drain raises at the first forward pass, after the buffers have
    been cleared; the parameters are not touched. *)
Lemma update_policy_with_repository_policy_raises
  (state_space action_space : nat) (to_layers : Params -> PolicyNet.Layers)
  (self : Agent) (ro : Rollout) :
  policy self = repository_policy state_space action_space to_layers ->
  drain self = Ok ro ->
  raises (snd (update_policy self)) /\
  buffers_empty (fst (update_policy self)).
Proof.
  intros Hp Hd.
  destruct (update_policy_after_drain self ro Hd) as (Hb & Hr & _).
  split; [|exact Hb].
  assert (Hl : raises (compute_losses self ro)).
  { unfold compute_losses.
    destruct (discount_rewards _ _) as [G|e]; cbn [bind]; [|eexists; reflexivity].
    unfold call_policy at 1. rewrite Hp. unfold repository_policy.
    destruct (Policy_forward_raises state_space action_space
                (to_layers (parameters self)) (constant (r_states ro))) as [e He].
    rewrite He. cbn [bind]. eexists. reflexivity. }
  destruct Hl as [e He]. exists e. now apply Hr.
Qed.

End AgentFacts.

(** ** The update step *)

Section UpdateFacts.

Context `{Runtime}.

Lemma update_policy_unfold (self : Agent) :
  update_policy self
  = match drain self with
    | Raise e => (self, Raise e)
    | Ok ro =>
        match compute_losses self ro with
        | Raise e => (cleared self, Raise e)
        | Ok l => optimizer_step l (cleared self)
        end
    end.
Proof.
  unfold update_policy, seq_method at 1 2 3 4, this, lift, cleared.
  destruct (drain self) as [ro|e]; [|reflexivity].
  cbn [clear_buffers fst].
  destruct (compute_losses self ro) as [l|e]; reflexivity.
Qed.





(** C8 (amended).  With no buffered transition the first statement of
    [update_policy], the stacking of an empty list, raises the tensor
    library's [RuntimeError]: nothing is computed, the agent is left as it
    was, and its buffers are still empty. *)
Theorem update_policy_on_empty_buffer_raises (self : Agent) :
  buffers_empty self ->
  update_policy self = (self, Raise RuntimeError) /\
  buffers_empty (fst (update_policy self)).
Proof.
  intros Hempty. pose proof Hempty as (_ & _ & Hlp & _ & _).
  assert (Hd : drain self = Raise RuntimeError).
  { unfold drain. rewrite Hlp. reflexivity. }
  rewrite (update_policy_when_drain_raises self RuntimeError Hd).
  split; [reflexivity | exact Hempty].
Qed.

(** C5. On a well-formed rollout of [N] steps the losses are computed and
    the actor loss is [-mean(action_log_probs * advantages)] with
    [advantages = G - values] entering as plain numbers: its value is the
    negated mean of [log_prob[k] * (G[k] - values[k])], and it is the same
    whatever gradient history the value estimates carry. *)
Theorem actor_loss_uses_detached_advantages (self : Agent) (ro : Rollout)
  (N : nat) (lps : list dual) (rs : list R) (vs : list dual) :
  well_formed self ro N lps rs vs ->
  exists (l : Losses) (G : list R) (x : dual),
    compute_losses self ro = Ok l /\
    discount_rewards rs (gamma self) = Ok G /\
    actor_loss l = T [] [x] /\
    x = policy_gradient_loss lps G (map val vs) /\
    val x = - (Rsum (map (fun k => val (nth k lps (dconst 0))
                                   * (nth k G 0 - val (nth k vs (dconst 0))))
                         (seq 0 N)) / INR N) /\
    (forall (self' : Agent) (ro' : Rollout) (vs' : list dual) (l' : Losses),
       well_formed self' ro' N lps rs vs' ->
       gamma self' = gamma self ->
       map val vs' = map val vs ->
       compute_losses self' ro' = Ok l' ->
       actor_loss l' = actor_loss l).
Proof.
  intros Hwf.
  pose proof (compute_losses_well_formed self ro N lps rs vs Hwf) as Hl.
  cbv zeta in Hl.
  eexists. exists (returns_spec rs (gamma self)). eexists.
  split; [exact Hl|]. split; [apply discount_rewards_refines|].
  split; [reflexivity|]. split; [reflexivity|]. split.
  - unfold policy_gradient_loss. rewrite (wf_lps _ _ _ _ _ _ Hwf).
    cbn [val dneg ddiv dmul dinv dlift dconst]. rewrite val_dsum, map_map.
    unfold Rdiv. do 3 f_equal.
    apply map_ext. intros k. cbn [val dmul dconst]. f_equal. f_equal.
    exact (map_nth val vs (dconst 0) k).
  - intros self' ro' vs' l' Hwf' Hgamma Hvals Hl'.
    pose proof (compute_losses_well_formed self' ro' N lps rs vs' Hwf') as Hl2.
    cbv zeta in Hl2. rewrite Hl2 in Hl'. injection Hl' as <-.
    cbn [actor_loss]. now rewrite Hgamma, Hvals.
Qed.

(** The critic loss of a well-formed rollout as a number. *)
Lemma critic_loss_value (N : nat) (dist : list dual) :
  val (ddiv (dsum dist) (dconst (INR N))) = Rsum (map val dist) / INR N.
Proof.
  cbn [val ddiv dmul dinv dlift dconst]. now rewrite val_dsum.
Qed.



End UpdateFacts.

(** ** Runs on concrete inputs *)

Section ConcreteRuns.

Import Concrete.

#[local] Existing Instance Concrete.grad_space.
#[local] Existing Instance Concrete.runtime.

Lemma Rpositive_true (x : R) : 0 < x -> Rpositive x = true.
Proof. intros Hx. unfold Rpositive. destruct (Rlt_dec 0 x); [reflexivity | contradiction]. Qed.

Lemma Rpositive_false (x : R) : x <= 0 -> Rpositive x = false.
Proof. intros Hx. unfold Rpositive. destruct (Rlt_dec 0 x); [lra | reflexivity]. Qed.

Lemma softplus_positive (u : R) : 0 < ln (1 + exp u).
Proof.
  rewrite <- ln_1. apply ln_increasing; [lra|].
  pose proof (exp_pos u). lra.
Qed.

Lemma patched_policy_forward :
  exists d, PolicyNet.forward patched_policy (T [1%nat; 1%nat; 1%nat] [D 1 0])
            = Ok [VNormal d].
Proof.
  unfold PolicyNet.forward, patched_policy.
  cbn [PolicyNet.getattr PolicyNet.Policy_init PolicyNet.setattr String.eqb
       Ascii.eqb Bool.eqb bind PolicyNet.call identity_layers
       PolicyNet.Linear_embedding PolicyNet.Linear_fc1 PolicyNet.LSTM_ac
       PolicyNet.Linear_fc2_actor PolicyNet.Linear_fc2_critic PolicyNet.sigma_init
       PolicyNet.call_lstm PolicyNet.as_tensor].
  unfold sum_dim1. cbn [shape data numel fold_right Nat.mul Nat.add seq map bind
                        Nat.div Nat.modulo Nat.divmod fst snd Nat.sub nth dsum].
  unfold tmap at 1 2. cbn [shape data map].
  unfold drelu at 2. cbn [val dadd dconst].
  rewrite (Rpositive_true (1 + 0)) by lra.
  unfold drelu. cbn [val dadd dconst].
  rewrite (Rpositive_true (1 + 0)) by lra.
  unfold unsqueeze0, squeeze0, tmap. cbn [shape data map bind].
  unfold dsoftplus. cbn [val]. rewrite (Rpositive_false (1 / 2 - 20)) by lra.
  unfold Normal_init, broadcast2.
  cbn [shape data rev app broadcast_rev Nat.eqb numel fold_right Nat.mul Nat.add
       seq map unravel_rev ravel_rev Nat.div Nat.modulo Nat.divmod fst snd Nat.sub
       nth bind forallb val dlift].
  rewrite (Rpositive_true _ (softplus_positive (1 / 2))). cbn [andb bind].
  eexists. reflexivity.
Qed.

Lemma Policy_forward_never_returns_a_pair_witness :
  exists out, PolicyNet.forward patched_policy (T [1%nat; 1%nat; 1%nat] [D 1 0]) = Ok out /\
              length out = 1%nat.
Proof.
  destruct patched_policy_forward as [d Hd].
  exists [VNormal d]. split; [exact Hd|].
  exact (proj2 (proj2 Policy_forward_never_returns_a_pair) patched_policy _ _ Hd).
Defined.

(** The agents of [Concrete] drain into [rollout_of]. *)
Lemma drain_rollout_agent_one (v r : R) :
  drain (rollout_agent [v] [r]) = Ok (rollout_of [r]).
Proof. reflexivity. Qed.

Lemma drain_rollout_agent_two (v1 v2 r1 r2 : R) :
  drain (rollout_agent [v1; v2] [r1; r2]) = Ok (rollout_of [r1; r2]).
Proof. reflexivity. Qed.


Lemma well_formed_rollout_agent_two (v1 v2 r1 r2 : R) :
  well_formed (rollout_agent [v1; v2] [r1; r2]) (rollout_of [r1; r2]) 2
              [D 0 1; D 0 1] [r1; r2] [D (v1 + 0) 1; D (v2 + 0) 1].
Proof.
  constructor; try reflexivity; try (cbn; lia).
  - eexists. reflexivity.
  - do 2 eexists. reflexivity.
Qed.

Lemma update_policy_clears_buffers_after_drain_witness :
  drain agent_with_failing_policy = Ok (rollout_of [1]) /\
  snd (update_policy agent_with_failing_policy) = Raise ValueError /\
  buffers_empty (fst (update_policy agent_with_failing_policy)).
Proof.
  split; [reflexivity|].
  apply (update_policy_clears_buffers_after_drain
           agent_with_failing_policy (rollout_of [1]) eq_refl).
  reflexivity.
Defined.

Lemma get_action_evaluation_is_deterministic_witness :
  get_action (rollout_agent [0] [1]) (T [2%nat] [0; 0]) true 5%nat
  = (Ok (VTensor (T [1%nat] [D 0 1]), VNone), 5%nat).
Proof.
  apply (proj1 (get_action_evaluation_is_deterministic
                  (rollout_agent [0] [1]) (T [2%nat] [0; 0]))
               (mkNormal (T [1%nat] [@D grad_space 0 1]) (T [1%nat] [@D grad_space 1 0]))
               (VTensor (T [1%nat; 1%nat] [@D grad_space (0 + 0) 1]))).
  reflexivity.
Defined.

(** C8 as stated fails: the exception is the tensor library's
    [RuntimeError], not an error class of the program. *)
Lemma update_policy_on_empty_buffer_is_not_EmptyRollout :
  buffers_empty empty_agent /\
  update_policy empty_agent = (empty_agent, Raise RuntimeError) /\
  snd (update_policy empty_agent) <> Raise (UserError "EmptyRollout").
Proof.
  split; [repeat split|]. split; [reflexivity | discriminate].
Qed.

Lemma update_policy_on_empty_buffer_raises_witness :
  update_policy empty_agent = (empty_agent, Raise RuntimeError) /\
  buffers_empty (fst (update_policy empty_agent)).
Proof.
  apply (update_policy_on_empty_buffer_raises empty_agent).
  repeat split.
Defined.



Lemma actor_loss_uses_detached_advantages_witness :
  exists (l : Losses) (x : dual),
    compute_losses (rollout_agent [3; 4] [1; 2]) (rollout_of [1; 2]) = Ok l /\
    actor_loss l = T [] [x] /\
    val x = - (Rsum (map (fun k => val (nth k [D 0 1; D 0 1] (dconst 0))
                                   * (nth k (returns_spec [1; 2] (99 / 100)) 0
                                      - val (nth k [D (3 + 0) 1; D (4 + 0) 1] (dconst 0))))
                         (seq 0 2)) / INR 2).
Proof.
  destruct (actor_loss_uses_detached_advantages _ _ _ _ _ _
              (well_formed_rollout_agent_two 3 4 1 2))
    as (l & G & x & Hl & HG & Ha & _ & Hval & _).
  exists l, x. split; [exact Hl|]. split; [exact Ha|].
  rewrite discount_rewards_refines in HG. injection HG as <-.
  exact Hval.
Defined.



(** On two steps the pairwise distance pairs every value estimate with every
    return: with returns [0, 0] and value estimates [3 - eps, 4 - eps] both
    entries are the norm of [(3, 4)], so the critic loss is 5, while the
    per-sample distances [|values[i] - G[i] + eps|] are 3 and 4. *)
Lemma critic_loss_pairs_every_value_with_every_return :
  exists (l : Losses) (x : dual),
    compute_losses (rollout_agent [3 - eps; 4 - eps] [0; 0]) (rollout_of [0; 0]) = Ok l /\
    critic_loss l = T [] [x] /\
    val x = 5.
Proof.
  pose proof (compute_losses_well_formed _ _ _ _ _ _
                (well_formed_rollout_agent_two (3 - eps) (4 - eps) 0 0)) as Hl.
  cbv zeta in Hl.
  eexists. eexists. split; [exact Hl|]. split; [reflexivity|].
  rewrite critic_loss_value.
  cbn [returns_spec hd gamma rollout_agent buffered_agent].
  unfold distance_rows.
  cbn [length seq map nth Rsum fold_right].
  unfold dnorm2, dsqrt, dsum.
  cbn [map fold_right val dlift dadd dsub dmul dconst INR].
  set (g := 99 / 100).
  replace ((3 - eps + 0 - (0 + g * (0 + g * 0)) + eps)
           * (3 - eps + 0 - (0 + g * (0 + g * 0)) + eps)
           + ((4 - eps + 0 - (0 + g * (0 + g * 0)) + eps)
              * (4 - eps + 0 - (0 + g * (0 + g * 0)) + eps) + 0))
    with (5 * 5) by (unfold g; ring).
  replace ((3 - eps + 0 - (0 + g * 0) + eps) * (3 - eps + 0 - (0 + g * 0) + eps)
           + ((4 - eps + 0 - (0 + g * 0) + eps) * (4 - eps + 0 - (0 + g * 0) + eps) + 0))
    with (5 * 5) by (unfold g; ring).
  rewrite sqrt_square by lra. lra.
Qed.

End ConcreteRuns.

(** ** More on the plain discounted returns *)

Lemma Rsum_scale (c : R) (l : list R) : Rsum (map (Rmult c) l) = c * Rsum l.
Proof.
  induction l as [|x l IH]; [cbn; lra|].
  change (c * x + Rsum (map (Rmult c) l) = c * (x + Rsum l)). rewrite IH. lra.
Qed.

Lemma returns_spec_skipn (r : list R) (gamma : R) (k : nat) :
  returns_spec (skipn k r) gamma = skipn k (returns_spec r gamma).
Proof.
  revert r; induction k as [|k IH]; intros [|x xs]; try reflexivity.
  cbn [skipn returns_spec]. apply IH.
Qed.

Lemma returns_spec_head_sum (r : list R) (gamma : R) :
  hd 0 (returns_spec r gamma)
  = Rsum (map (fun k => gamma ^ k * nth k r 0) (seq 0 (length r))).
Proof.
  induction r as [|x xs IH]; [reflexivity|].
  cbn [returns_spec hd length seq map]. rewrite IH.
  change (x + gamma * Rsum (map (fun k => gamma ^ k * nth k xs 0) (seq 0 (length xs)))
          = gamma ^ 0 * nth 0 (x :: xs) 0
            + Rsum (map (fun k => gamma ^ k * nth k (x :: xs) 0) (seq 1 (length xs)))).
  rewrite <- seq_shift, map_map, <- Rsum_scale, map_map.
  cbn [nth pow]. f_equal; [lra|]. f_equal.
  apply map_ext. intros k. cbn [nth pow]. lra.
Qed.

Lemma nth_skipn_hd (l : list R) (t : nat) : nth t l 0 = hd 0 (skipn t l).
Proof.
  revert l; induction t as [|t IH]; intros [|x l]; try reflexivity.
  cbn [nth skipn]. apply IH.
Qed.

(** X1. The returns are the discounted sums of the rewards still to come:
    [G[t] = sum over k of gamma^k * r[t+k]], for every position [t]
    (beyond the end both sides are 0). *)
Theorem discount_rewards_closed_form (r : list R) (gamma : R) :
  exists G,
    discount_rewards r gamma = Ok G /\
    forall t,
      nth t G 0
      = Rsum (map (fun k => gamma ^ k * nth (t + k) r 0) (seq 0 (length r - t))).
Proof.
  exists (returns_spec r gamma). split; [apply discount_rewards_refines|].
  intros t. rewrite nth_skipn_hd, <- returns_spec_skipn, returns_spec_head_sum.
  rewrite length_skipn. f_equal. apply map_ext. intros k. f_equal.
  revert r; induction t as [|t IH]; intros r; [reflexivity|].
  destruct r as [|x xs]; [now destruct k | apply IH].
Qed.

(** X2. The returns of a suffix of the rewards are the suffix of the
    returns: what was collected before step [k] changes no return from step
    [k] on. *)
Theorem discount_rewards_ignores_earlier_steps (earlier r : list R) (gamma : R) :
  exists G Gall,
    discount_rewards r gamma = Ok G /\
    discount_rewards (earlier ++ r) gamma = Ok Gall /\
    skipn (length earlier) Gall = G.
Proof.
  exists (returns_spec r gamma), (returns_spec (earlier ++ r) gamma).
  split; [apply discount_rewards_refines|].
  split; [apply discount_rewards_refines|].
  rewrite <- returns_spec_skipn, skipn_app, Nat.sub_diag, skipn_all.
  reflexivity.
Qed.

Lemma returns_spec_repeat_head (c gamma : R) (n : nat) :
  hd 0 (returns_spec (repeat c n) gamma) * (1 - gamma) = c * (1 - gamma ^ n).
Proof.
  induction n as [|n IH]; [cbn; lra|].
  cbn [repeat returns_spec hd pow].
  replace ((c + gamma * hd 0 (returns_spec (repeat c n) gamma)) * (1 - gamma))
    with (c * (1 - gamma) + gamma * (hd 0 (returns_spec (repeat c n) gamma) * (1 - gamma)))
    by ring.
  rewrite IH. ring.
Qed.

Lemma returns_spec_repeat_head_undiscounted (c : R) (n : nat) :
  hd 0 (returns_spec (repeat c n) 1) = c * INR n.
Proof.
  induction n as [|n IH]; [cbn; lra|].
  cbn [repeat returns_spec hd]. rewrite IH, S_INR. ring.
Qed.

Lemma skipn_repeat {A : Type} (x : A) (n t : nat) :
  skipn t (repeat x n) = repeat x (n - t).
Proof.
  revert n; induction t as [|t IH]; intros [|n]; try reflexivity.
  cbn [skipn repeat Nat.sub]. apply IH.
Qed.

(** X3. For a constant reward [c] over [n] steps the return at step [t] is
    the geometric sum: [G[t] * (1 - gamma) = c * (1 - gamma^(n-t))], hence
    [c * (1 - gamma^(n-t)) / (1 - gamma)] when [gamma <> 1]; with
    [gamma = 1] it is [c * (n - t)]. *)
Theorem discount_rewards_constant_reward (c gamma : R) (n : nat) :
  exists G G1,
    discount_rewards (repeat c n) gamma = Ok G /\
    discount_rewards (repeat c n) 1 = Ok G1 /\
    forall t,
      nth t G 0 * (1 - gamma) = c * (1 - gamma ^ (n - t)) /\
      (gamma <> 1 -> nth t G 0 = c * (1 - gamma ^ (n - t)) / (1 - gamma)) /\
      nth t G1 0 = c * INR (n - t).
Proof.
  exists (returns_spec (repeat c n) gamma), (returns_spec (repeat c n) 1).
  split; [apply discount_rewards_refines|].
  split; [apply discount_rewards_refines|].
  intros t.
  assert (Hgeo : nth t (returns_spec (repeat c n) gamma) 0 * (1 - gamma)
                 = c * (1 - gamma ^ (n - t))).
  { rewrite nth_skipn_hd, <- returns_spec_skipn, skipn_repeat.
    apply returns_spec_repeat_head. }
  split; [exact Hgeo|]. split.
  - intros Hg. rewrite <- Hgeo. field. lra.
  - rewrite nth_skipn_hd, <- returns_spec_skipn, skipn_repeat.
    apply returns_spec_repeat_head_undiscounted.
Qed.

(** The rewards [a * x + b * y], step by step. *)
Lemma returns_spec_linear (a b gamma : R) (r r' : list R) :
  length r = length r' ->
  returns_spec (map (fun xy => a * fst xy + b * snd xy) (combine r r')) gamma
  = map (fun gg => a * fst gg + b * snd gg)
        (combine (returns_spec r gamma) (returns_spec r' gamma)).
Proof.
  revert r'; induction r as [|x xs IH]; intros [|y ys] Hlen; try discriminate;
    [reflexivity|].
  injection Hlen as Hlen.
  cbn [combine map returns_spec fst snd]. rewrite (IH ys Hlen). f_equal.
  destruct xs as [|x2 xs], ys as [|y2 ys]; try discriminate; cbn; ring.
Qed.

(** X4. The returns are linear in the rewards: for reward sequences of equal
    length, the returns of [a * r + b * r'] are [a * G + b * G']. *)
Theorem discount_rewards_linear (a b gamma : R) (r r' : list R) :
  length r = length r' ->
  exists G G',
    discount_rewards r gamma = Ok G /\
    discount_rewards r' gamma = Ok G' /\
    discount_rewards (map (fun xy => a * fst xy + b * snd xy) (combine r r')) gamma
    = Ok (map (fun gg => a * fst gg + b * snd gg) (combine G G')).
Proof.
  intros Hlen. exists (returns_spec r gamma), (returns_spec r' gamma).
  split; [apply discount_rewards_refines|].
  split; [apply discount_rewards_refines|].
  rewrite discount_rewards_refines. f_equal. now apply returns_spec_linear.
Qed.

Lemma discount_rewards_linear_witness :
  exists G G',
    discount_rewards [1; 2] (1/2) = Ok G /\
    discount_rewards [3; 4] (1/2) = Ok G' /\
    discount_rewards (map (fun xy => 2 * fst xy + 5 * snd xy) (combine [1; 2] [3; 4])) (1/2)
    = Ok (map (fun gg => 2 * fst gg + 5 * snd gg) (combine G G')).
Proof.
  exact (discount_rewards_linear 2 5 (1/2) [1; 2] [3; 4] eq_refl).
Defined.

Lemma returns_spec_bounded (gamma M : R) (r : list R) :
  0 <= gamma <= 1 ->
  (forall x, In x r -> Rabs x <= M) ->
  Rabs (hd 0 (returns_spec r gamma)) <= M * INR (length r).
Proof.
  intros Hg. induction r as [|x xs IH]; intros Hr.
  - cbn. rewrite Rabs_R0. lra.
  - cbn [returns_spec hd length]. rewrite S_INR.
    assert (Hx : Rabs x <= M) by (apply Hr; now left).
    assert (Hxs : Rabs (hd 0 (returns_spec xs gamma)) <= M * INR (length xs))
      by (apply IH; intros y Hy; apply Hr; now right).
    eapply Rle_trans; [apply Rabs_triang|].
    rewrite Rabs_mult, (Rabs_right gamma) by lra.
    pose proof (Rabs_pos (hd 0 (returns_spec xs gamma))) as Hpos.
    nra.
Qed.

(** X5. With a discount factor in [0, 1] and rewards bounded by [M] in
    absolute value, the return at step [t] is bounded by [M] times the
    number of steps still to come. *)
Theorem discount_rewards_bounded (gamma M : R) (r : list R) :
  0 <= gamma <= 1 ->
  (forall x, In x r -> Rabs x <= M) ->
  exists G,
    discount_rewards r gamma = Ok G /\
    forall t, Rabs (nth t G 0) <= M * INR (length r - t).
Proof.
  intros Hg Hr. exists (returns_spec r gamma).
  split; [apply discount_rewards_refines|].
  intros t. rewrite nth_skipn_hd, <- returns_spec_skipn, <- length_skipn.
  apply returns_spec_bounded; [exact Hg|].
  intros x Hx. apply Hr. revert Hx. clear.
  revert r; induction t as [|t IH]; intros [|y r] Hx; try exact Hx.
  right. now apply IH.
Qed.

Lemma discount_rewards_bounded_witness :
  exists G,
    discount_rewards [1; -2; 2] (1/2) = Ok G /\
    forall t, Rabs (nth t G 0) <= 2 * INR (length [1; -2; 2] - t).
Proof.
  apply (discount_rewards_bounded (1/2) 2 [1; -2; 2]); [lra|].
  intros x [<-|[<-|[<-|[]]]].
  - rewrite Rabs_right; lra.
  - rewrite Rabs_left; lra.
  - rewrite Rabs_right; lra.
Defined.

(** ** More on the bootstrapped returns *)

Lemma forallb_agree {A : Type} (f g : A -> bool) (l : list A) :
  (forall x, In x l -> f x = g x) -> forallb f l = forallb g l.
Proof.
  induction l as [|x l IH]; intros Hfg; [reflexivity|].
  cbn [forallb]. rewrite (Hfg x (or_introl eq_refl)), IH; [reflexivity|].
  intros y Hy. apply Hfg. now right.
Qed.

Lemma map_seq_is_list (f : nat -> R) (l : list R) :
  (forall t, (t < length l)%nat -> f t = nth t l 0) ->
  map f (seq 0 (length l)) = l.
Proof.
  intros Hf. apply (nth_ext _ _ 0 0).
  - now rewrite length_map, length_seq.
  - intros t Ht. rewrite length_map, length_seq in Ht.
    rewrite nth_map_seq by exact Ht. now apply Hf.
Qed.

(** X6. The bootstrapped loop reads [done[t]] for the steps of the rewards
    and [next_values[t]] for the steps that are not done, and nothing else:
    two calls whose done flags agree on those steps and whose next values
    agree on the steps that are not done have the same outcome (the same
    returns, or the same exception), whatever the other entries are and
    whether or not they exist. *)
Theorem bootstrapped_discount_rewards_reads_only_live_steps
  (r : list R) (gamma : R) (done done' : list bool) (next_values next_values' : list R) :
  (forall t, (t < length r)%nat -> nth_error done t = nth_error done' t) ->
  (forall t, (t < length r)%nat -> nth_error done t = Some false ->
     nth_error next_values t = nth_error next_values' t) ->
  bootstrapped_discount_rewards r gamma done next_values
  = bootstrapped_discount_rewards r gamma done' next_values'.
Proof.
  intros Hd Hv.
  assert (Hstep : forall t, (t < length r)%nat ->
            step_indexable done next_values t = step_indexable done' next_values' t).
  { intros t Ht. unfold step_indexable. rewrite <- (Hd t Ht).
    destruct (nth_error done t) as [[|]|] eqn:E; try reflexivity.
    now rewrite (Hv t Ht E). }
  assert (Hall : all_indexable r done next_values = all_indexable r done' next_values').
  { unfold all_indexable. apply forallb_agree. intros t Ht. apply in_seq in Ht.
    apply Hstep. lia. }
  destruct (all_indexable r done next_values) eqn:E.
  - rewrite (bootstrapped_ok r gamma done next_values E).
    rewrite (bootstrapped_ok r gamma done' next_values') by now rewrite <- Hall.
    f_equal. apply map_ext_in. intros t Ht. apply in_seq in Ht.
    assert (Hlt : (t < length r)%nat) by lia.
    unfold all_indexable in E. rewrite forallb_forall in E.
    specialize (E t ltac:(apply in_seq; lia)). unfold step_indexable in E.
    unfold bootstrap_at. pose proof (Hd t Hlt) as Hdt. pose proof (Hv t Hlt) as Hvt.
    destruct (nth_error done t) as [[|]|] eqn:Ed; try discriminate.
    + rewrite (nth_error_nth done t true Ed).
      rewrite (nth_error_nth done' t true (eq_sym Hdt)). reflexivity.
    + rewrite (nth_error_nth done t true Ed).
      rewrite (nth_error_nth done' t true (eq_sym Hdt)).
      specialize (Hvt eq_refl).
      destruct (nth_error next_values t) as [v|] eqn:Ev; try discriminate.
      rewrite (nth_error_nth next_values t 0 Ev).
      rewrite (nth_error_nth next_values' t 0 (eq_sym Hvt)). reflexivity.
  - rewrite (bootstrapped_raises r gamma done next_values E).
    rewrite (bootstrapped_raises r gamma done' next_values') by now rewrite <- Hall.
    reflexivity.
Qed.

Lemma bootstrapped_discount_rewards_reads_only_live_steps_witness :
  bootstrapped_discount_rewards [1; 2] (1/2) [true; false] [7; 3]
  = bootstrapped_discount_rewards [1; 2] (1/2) [true; false; true] [99; 3; 5] /\
  bootstrapped_discount_rewards [1; 2] (1/2) [false; true] [3; 7]
  = bootstrapped_discount_rewards [1; 2] (1/2) [false; true] [3].
Proof.
  split.
  - apply bootstrapped_discount_rewards_reads_only_live_steps.
    + intros [|[|t]] Ht; try reflexivity. cbn in Ht. lia.
    + intros [|[|t]] Ht E; try reflexivity; try discriminate. cbn in Ht. lia.
  - apply bootstrapped_discount_rewards_reads_only_live_steps.
    + intros t Ht. reflexivity.
    + intros [|[|t]] Ht E; try reflexivity; try discriminate. cbn in Ht. lia.
Defined.

Lemma nth_repeat_in_range {A : Type} (x d : A) (m t : nat) :
  (t < m)%nat -> nth t (repeat x m) d = x.
Proof.
  intros Ht. apply nth_error_nth. now apply nth_error_repeat.
Qed.

(** X7. The bootstrapped routine reproduces the plain returns when it is
    fed the plain returns themselves as continuation: with only the last
    step done and [next_values[t] = G[t+1]] (any value at the last step),
    its result is [G = discount_rewards(r, gamma)]. *)
Theorem bootstrapped_on_next_returns_is_discount_rewards
  (r : list R) (gamma v : R) :
  exists G,
    discount_rewards r gamma = Ok G /\
    bootstrapped_discount_rewards r gamma
      (repeat false (length r - 1) ++ [true]) (skipn 1 G ++ [v])
    = Ok G.
Proof.
  exists (returns_spec r gamma). split; [apply discount_rewards_refines|].
  set (G := returns_spec r gamma).
  assert (HG : length G = length r) by apply returns_spec_length.
  rewrite bootstrapped_ok.
  2:{ apply all_indexable_of_long_enough.
      - rewrite length_app, repeat_length. cbn. lia.
      - rewrite length_app, length_skipn. cbn. lia. }
  f_equal. replace (seq 0 (length r)) with (seq 0 (length G)) by now rewrite HG.
  apply map_seq_is_list.
  intros t Ht. rewrite HG in Ht. unfold bootstrap_at.
  pose proof (returns_spec_step r gamma t Ht) as Hs. fold G in Hs.
  rewrite Hs. f_equal.
  destruct (Nat.eq_dec (S t) (length r)) as [Hlast|Hmid].
  - rewrite app_nth2 by (rewrite repeat_length; lia).
    rewrite repeat_length.
    replace (t - (length r - 1))%nat with 0%nat by lia. cbn [nth].
    rewrite (nth_overflow G) by lia. lra.
  - rewrite app_nth1 by (rewrite repeat_length; lia).
    rewrite nth_repeat_in_range by lia.
    rewrite app_nth1 by (rewrite length_skipn; lia).
    f_equal. rewrite (nth_skipn_hd (skipn 1 G)), skipn_skipn, <- nth_skipn_hd.
    f_equal. lia.
Qed.

(** X8. Without a continuation the bootstrapped returns are the rewards:
    when every step is done (whatever the next values, even none), and when
    [gamma = 0] (on inputs the loop can subscript). *)
Theorem bootstrapped_without_continuation_is_rewards :
  (forall (r : list R) (gamma : R) (next_values : list R),
     bootstrapped_discount_rewards r gamma (repeat true (length r)) next_values
     = Ok r) /\
  (forall (r : list R) (done : list bool) (next_values : list R),
     all_indexable r done next_values = true ->
     bootstrapped_discount_rewards r 0 done next_values = Ok r).
Proof.
  split.
  - intros r gamma nv. rewrite bootstrapped_ok.
    + f_equal. apply map_seq_is_list. intros t Ht. unfold bootstrap_at.
      rewrite nth_repeat_in_range by exact Ht. lra.
    + unfold all_indexable. apply forallb_forall. intros t Ht. apply in_seq in Ht.
      unfold step_indexable. rewrite nth_error_repeat by lia. reflexivity.
  - intros r done nv Hall. rewrite bootstrapped_ok by exact Hall.
    f_equal. apply map_seq_is_list. intros t Ht. unfold bootstrap_at.
    destruct (nth t done true); lra.
Qed.

(** ** More on the policy network *)

Section PolicyMore.

Context `{Runtime}.

Import PolicyNet.

(** X10. How [forward] fails on the object [__init__] builds: when the
    embedded input has fewer than two dimensions (a single state vector),
    the sum over dimension 1 raises [IndexError]; and when every layer up to
    the action distribution succeeds, the lookup of [fc3_critic] raises
    [AttributeError]. *)
Theorem Policy_forward_failure_modes
  (state_space action_space : nat) (l : Layers) (x : tensor dual) :
  (forall y, Linear_embedding l x = Ok y -> (length (shape y) < 2)%nat ->
     forward (Policy_init state_space action_space l) x = Raise IndexError) /\
  (forall y1 y2 y3 y4 hc action_mean d,
     Linear_embedding l x = Ok y1 ->
     sum_dim1 y1 = Ok y2 ->
     Linear_fc1 l (tmap drelu y2) = Ok y3 ->
     LSTM_ac l (unsqueeze0 (tmap drelu y3)) = Ok (y4, hc) ->
     Linear_fc2_actor l (squeeze0 y4) = Ok action_mean ->
     Normal_init action_mean (tmap dsoftplus (sigma_init l)) = Ok d ->
     forward (Policy_init state_space action_space l) x
     = Raise (AttributeError "fc3_critic")).
Proof.
  split.
  - intros y Hy Hrank. unfold forward.
    change (getattr (Policy_init state_space action_space l) "embedding_ac")
      with (Ok (AModule (Linear_embedding l))).
    cbn [bind call]. rewrite Hy. cbn [bind].
    unfold sum_dim1. destruct (shape y) as [|d0 [|d1 s]]; cbn in Hrank; try lia;
      reflexivity.
  - intros y1 y2 y3 y4 hc am d H1 H2 H3 H4 H5 H6. unfold forward.
    change (getattr (Policy_init state_space action_space l) "embedding_ac")
      with (Ok (AModule (Linear_embedding l))).
    cbn [bind call]. rewrite H1. cbn [bind]. rewrite H2. cbn [bind].
    change (getattr (Policy_init state_space action_space l) "relu")
      with (Ok (AFunction (tmap drelu))).
    cbn [bind call].
    change (getattr (Policy_init state_space action_space l) "fc1_ac")
      with (Ok (AModule (Linear_fc1 l))).
    cbn [bind call]. rewrite H3. cbn [bind].
    change (getattr (Policy_init state_space action_space l) "lstm_ac")
      with (Ok (ALSTM (LSTM_ac l))).
    cbn [bind call_lstm]. rewrite H4. cbn [bind].
    change (getattr (Policy_init state_space action_space l) "fc2_actor")
      with (Ok (AModule (Linear_fc2_actor l))).
    cbn [bind call]. rewrite H5. cbn [bind].
    change (getattr (Policy_init state_space action_space l) "sigma_activation")
      with (Ok (AFunction (tmap dsoftplus))).
    change (getattr (Policy_init state_space action_space l) "sigma")
      with (Ok (AParameter (sigma_init l))).
    cbn [bind call as_tensor]. rewrite H6. cbn [bind].
    reflexivity.
Qed.

End PolicyMore.

(** ** The scale of the action distribution *)

Section ScaleFacts.

Context `{Runtime}.

Lemma Rpositive_iff (x : R) : Rpositive x = true <-> 0 < x.
Proof.
  unfold Rpositive. destruct (Rlt_dec 0 x); split; intros; try assumption;
    try reflexivity; try discriminate; contradiction.
Qed.

Lemma softplus_is_positive (a : dual) : 0 < val (dsoftplus a).
Proof.
  unfold dsoftplus. destruct (Rpositive (val a - 20)) eqn:E.
  - apply Rpositive_iff in E. lra.
  - cbn [val dlift]. rewrite <- ln_1. apply ln_increasing; [lra|].
    pose proof (exp_pos (val a)). lra.
Qed.

Lemma numel_app (a b : list nat) : numel (a ++ b) = (numel a * numel b)%nat.
Proof.
  unfold numel. induction a as [|x a IH]; cbn [app fold_right]; [lia|].
  rewrite IH. lia.
Qed.

Lemma numel_rev (s : list nat) : numel (rev s) = numel s.
Proof.
  induction s as [|x s IH]; [reflexivity|].
  cbn [rev]. rewrite numel_app, IH. unfold numel. cbn [fold_right]. ring.
Qed.

Lemma broadcast_rev_cons (ra : list nat) (y : nat) (rb' rs : list nat) :
  broadcast_rev ra (y :: rb') = Some rs ->
  exists d s ra', rs = d :: s /\ broadcast_rev ra' rb' = Some s /\
                  (y = 1%nat \/ d = y).
Proof.
  destruct ra as [|x ra']; cbn [broadcast_rev].
  - intros E. injection E as <-. exists y, rb', [].
    split; [reflexivity|]. split; [now destruct rb' | now right].
  - destruct (broadcast_rev ra' rb') as [s|] eqn:Es; [|discriminate].
    destruct (x =? y)%nat eqn:Exy.
    + apply Nat.eqb_eq in Exy. intros E. injection E as <-.
      exists x, s, ra'. split; [reflexivity|]. split; [exact Es | now right].
    + destruct (x =? 1)%nat eqn:Ex1.
      * intros E. injection E as <-. exists y, s, ra'.
        split; [reflexivity|]. split; [exact Es | now right].
      * destruct (y =? 1)%nat eqn:Ey1; [|discriminate].
        apply Nat.eqb_eq in Ey1. intros E. injection E as <-.
        exists x, s, ra'. split; [reflexivity|]. split; [exact Es | now left].
Qed.

(** A broadcast read stays inside the operand. *)
Lemma ravel_rev_in_range (rb ra rs : list nat) (k : nat) :
  broadcast_rev ra rb = Some rs ->
  (k < numel rs)%nat ->
  (ravel_rev rb (unravel_rev rs k) < numel rb)%nat.
Proof.
  revert ra rs k; induction rb as [|y rb' IH]; intros ra rs k Hb Hk.
  - cbn. lia.
  - destruct (broadcast_rev_cons ra y rb' rs Hb) as (d & s & ra' & -> & Hs & Hd).
    cbn [numel fold_right] in Hk.
    change (fold_right Nat.mul 1%nat s) with (numel s) in Hk.
    assert (Hdpos : (0 < d)%nat) by (destruct d; [cbn in Hk; lia | lia]).
    assert (Hq : (k / d < numel s)%nat)
      by (apply Nat.Div0.div_lt_upper_bound; exact Hk).
    specialize (IH ra' s (k / d)%nat Hs Hq).
    cbn [unravel_rev ravel_rev numel fold_right].
    change (fold_right Nat.mul 1%nat rb') with (numel rb').
    destruct (y =? 1)%nat eqn:Ey.
    + apply Nat.eqb_eq in Ey. subst y. lia.
    + apply Nat.eqb_neq in Ey. destruct Hd as [Hd|Hd]; [contradiction|]. subst d.
      pose proof (Nat.mod_upper_bound k y ltac:(lia)). nia.
Qed.

Lemma Normal_init_of_softplus (action_mean sigma : tensor dual) :
  length (data sigma) = numel (shape sigma) ->
  (forall a, In a (data (tmap dsoftplus sigma)) -> 0 < val a) /\
  match broadcast_rev (rev (shape action_mean)) (rev (shape sigma)) with
  | Some rs =>
      exists d, Normal_init action_mean (tmap dsoftplus sigma) = Ok d /\
                shape (loc d) = rev rs /\ shape (scale d) = rev rs /\
                (forall a, In a (data (scale d)) -> 0 < val a)
  | None => Normal_init action_mean (tmap dsoftplus sigma) = Raise RuntimeError
  end.
Proof.
  intros Hwf. split.
  - intros a Ha. cbn [tmap data] in Ha. apply in_map_iff in Ha as (b & <- & _).
    apply softplus_is_positive.
  - unfold Normal_init, broadcast2. cbn [tmap shape data].
    destruct (broadcast_rev (rev (shape action_mean)) (rev (shape sigma)))
      as [rs|] eqn:Hb; [|reflexivity].
    cbn [bind data].
    set (scale_data :=
           map (fun k => nth (ravel_rev (rev (shape sigma)) (unravel_rev rs k))
                             (map dsoftplus (data sigma)) (dconst 0))
               (seq 0 (numel rs))).
    assert (Hpos : forall a, In a scale_data -> 0 < val a).
    { intros a Ha. unfold scale_data in Ha.
      apply in_map_iff in Ha as (k & <- & Hk). apply in_seq in Hk.
      pose proof (ravel_rev_in_range _ _ _ k Hb ltac:(lia)) as Hin.
      rewrite numel_rev, <- Hwf in Hin.
      rewrite (nth_indep _ (dconst 0) (dsoftplus (dconst 0)))
        by (now rewrite length_map).
      rewrite map_nth. apply softplus_is_positive. }
    assert (Hall : forallb (fun s0 : dual => Rpositive (val s0)) scale_data = true).
    { apply forallb_forall. intros a Ha. apply Rpositive_iff. now apply Hpos. }
    rewrite Hall. eexists. split; [reflexivity|]. cbn [loc scale shape data].
    repeat split. exact Hpos.
Qed.

End ScaleFacts.

(** ** More on the agent: buffers and updates *)

Section AgentMore.

Context `{Runtime}.


Lemma store_outcome_converted (self : Agent) (state next_state : tensor R)
  (action_log_prob : tensor dual) (reward : R) (d : bool) :
  store_outcome (NdArray state) (NdArray next_state) action_log_prob
                (Number reward) d self
  = (mkAgent (policy self) (parameters self) (param_grad self) (optimizer self)
             (gamma self) (states self ++ [state])
             (next_states self ++ [next_state])
             (action_log_probs self ++ [action_log_prob])
             (rewards self ++ [reward]) (done self ++ [d]),
     Ok tt).
Proof. reflexivity. Qed.

Lemma store_outcome_states (self : Agent) (state next_state : array_like)
  (action_log_prob : tensor dual) (reward : number_like) (d : bool) :
  let self' := fst (store_outcome state next_state action_log_prob reward d self) in
  states self'
  = states self ++ match state with NdArray t => [t] | NotAnArray => [] end /\
  policy self' = policy self /\ gamma self' = gamma self.
Proof.
  destruct state as [s|]; [destruct next_state as [n|]; [destruct reward as [r|]|]|];
    cbn; rewrite ?app_nil_r; repeat split.
Qed.




Lemma run_stores (ts : list transition) (self : Agent) :
  let self' := run (map Store ts) self in
  states self' = states self ++ map t_state ts /\
  next_states self' = next_states self ++ map t_next_state ts /\
  action_log_probs self' = action_log_probs self ++ map t_action_log_prob ts /\
  rewards self' = rewards self ++ map t_reward ts /\
  done self' = done self ++ map t_done ts.
Proof.
  unfold run. revert self; induction ts as [|t ts IH]; intros self; cbn [map fold_left].
  - rewrite !app_nil_r. repeat split.
  - destruct (IH (perform self (Store t))) as (Hs & Hn & Hl & Hr & Hd).
    cbn zeta. rewrite Hs, Hn, Hl, Hr, Hd. cbn [perform].
    rewrite store_outcome_converted.
    cbn [fst states next_states action_log_probs rewards done].
    rewrite <- !app_assoc. repeat split.
Qed.

Lemma stack_same_shape {A : Type} (sh : list nat) (ts : list (tensor A)) :
  ts <> [] -> (forall t, In t ts -> shape t = sh) ->
  stack ts = Ok (T (length ts :: sh) (concat (map data ts))).
Proof.
  intros Hne Hsh. destruct ts as [|t ts]; [congruence|].
  unfold stack.
  assert (Hall : forallb (fun t' : tensor A => shape_eqb (shape t) (shape t')) ts = true).
  { apply forallb_forall. intros t' Ht'.
    rewrite (Hsh t (or_introl eq_refl)), (Hsh t' (or_intror Ht')).
    apply shape_eqb_refl. }
  rewrite Hall, (Hsh t (or_introl eq_refl)). reflexivity.
Qed.

(** The rollout made of the transitions [ts], in the order of recording. *)
Lemma drain_of_stored (self : Agent) (ts : list transition) (sh sh' : list nat) :
  buffers_empty self ->
  ts <> [] ->
  (forall t, In t ts ->
     shape (t_state t) = sh /\ shape (t_next_state t) = sh' /\
     shape (t_action_log_prob t) = []) ->
  drain (run (map Store ts) self)
  = Ok (mkRollout
          (squeeze_last (T [length ts] (concat (map (fun t => data (t_action_log_prob t)) ts))))
          (squeeze_last (T (length ts :: sh) (concat (map (fun t => data (t_state t)) ts))))
          (squeeze_last (T (length ts :: sh') (concat (map (fun t => data (t_next_state t)) ts))))
          (T [length ts] (map t_reward ts))
          (T [length ts] (map (fun t => if t_done t then 1 else 0) ts))).
Proof.
  intros (Es & En & El & Er & Ed) Hne Hsh.
  destruct (run_stores ts self) as (Hs & Hn & Hl & Hr & Hd).
  rewrite Es, En, El, Er, Ed in *. cbn [app] in *.
  unfold drain. rewrite Hs, Hn, Hl, Hr, Hd.
  assert (Hne' : forall (B : Type) (f : transition -> B), map f ts <> [])
    by (intros B f; destruct ts; [congruence | discriminate]).
  rewrite (stack_same_shape [] (map t_action_log_prob ts)); [|apply Hne'|].
  2:{ intros t Ht. apply in_map_iff in Ht as (t0 & <- & Ht0). apply (Hsh t0 Ht0). }
  cbn [bind].
  rewrite (stack_same_shape sh (map t_state ts)); [|apply Hne'|].
  2:{ intros t Ht. apply in_map_iff in Ht as (t0 & <- & Ht0). apply (Hsh t0 Ht0). }
  cbn [bind].
  rewrite (stack_same_shape sh' (map t_next_state ts)); [|apply Hne'|].
  2:{ intros t Ht. apply in_map_iff in Ht as (t0 & <- & Ht0). apply (Hsh t0 Ht0). }
  cbn [bind].
  rewrite map_map.
  rewrite (stack_same_shape [1%nat] (map (fun t => reward_tensor (t_reward t)) ts));
    [|apply Hne'|].
  2:{ intros t Ht. apply in_map_iff in Ht as (t0 & <- & Ht0). reflexivity. }
  cbn [bind]. unfold done_tensor. rewrite !length_map, !map_map.
  f_equal. f_equal.
  - unfold squeeze_last. cbn [shape rev app data]. f_equal.
    cbn [reward_tensor data].
    rewrite <- (concat_singletons (map t_reward ts)), map_map. reflexivity.
Qed.

(** X13. Record, then drain: after the transitions [ts] (at least one, with
    states of one shape, next states of one shape and log-probabilities
    without dimensions) have been stored in a new agent, the stacking at
    the start of [update_policy] succeeds and yields the rollout in the order
    of recording: entry [i] of each stacked tensor comes from the [i]-th
    transition, the rewards as a vector and the done flags as 1 and 0. *)
Theorem store_then_drain
  (policy0 : Params -> tensor R -> result (list value)) (params : Params)
  (ts : list transition) (sh sh' : list nat) :
  ts <> [] ->
  (forall t, In t ts ->
     shape (t_state t) = sh /\ shape (t_next_state t) = sh' /\
     shape (t_action_log_prob t) = []) ->
  let N := length ts in
  drain (run (map Store ts) (Agent_init policy0 params))
  = Ok (mkRollout
          (squeeze_last (T [N] (concat (map (fun t => data (t_action_log_prob t)) ts))))
          (squeeze_last (T (N :: sh) (concat (map (fun t => data (t_state t)) ts))))
          (squeeze_last (T (N :: sh') (concat (map (fun t => data (t_next_state t)) ts))))
          (T [N] (map t_reward ts))
          (T [N] (map (fun t => if t_done t then 1 else 0) ts))).
Proof.
  intros Hne Hsh N. apply drain_of_stored; [repeat split | exact Hne | exact Hsh].
Qed.

(** X22. No stale data after an update: once an [update_policy] call has got
    past the stacking of the buffers (whether it then completed or raised),
    the transitions stored afterwards drain into a rollout made of these
    transitions only. *)
Theorem update_then_store_then_drain (self : Agent) (ro : Rollout)
  (ts : list transition) (sh sh' : list nat) :
  drain self = Ok ro ->
  ts <> [] ->
  (forall t, In t ts ->
     shape (t_state t) = sh /\ shape (t_next_state t) = sh' /\
     shape (t_action_log_prob t) = []) ->
  let N := length ts in
  drain (run (Update :: map Store ts) self)
  = Ok (mkRollout
          (squeeze_last (T [N] (concat (map (fun t => data (t_action_log_prob t)) ts))))
          (squeeze_last (T (N :: sh) (concat (map (fun t => data (t_state t)) ts))))
          (squeeze_last (T (N :: sh') (concat (map (fun t => data (t_next_state t)) ts))))
          (T [N] (map t_reward ts))
          (T [N] (map (fun t => if t_done t then 1 else 0) ts))).
Proof.
  intros Hd Hne Hsh N.
  change (run (Update :: map Store ts) self)
    with (run (map Store ts) (fst (update_policy self))).
  apply drain_of_stored; [|exact Hne | exact Hsh].
  now destruct (update_policy_after_drain self ro Hd).
Qed.

End AgentMore.

(** ** More on the update step *)

Section UpdateMore.

Context `{Runtime}.





(** X16. An update consumes the rollout: right after any [update_policy]
    call that got past the stacking of the buffers, a second call finds the
    buffers empty, raises [RuntimeError] and changes nothing. *)
Theorem update_policy_twice (self : Agent) (ro : Rollout) :
  drain self = Ok ro ->
  update_policy (fst (update_policy self))
  = (fst (update_policy self), Raise RuntimeError).
Proof.
  intros Hd.
  destruct (update_policy_after_drain self ro Hd) as ((_ & _ & Hlp & _ & _) & _).
  apply update_policy_when_drain_raises.
  unfold drain. rewrite Hlp. reflexivity.
Qed.

(** X17. With the repository's own network as the policy, a rollout is lost
    without any learning: every [update_policy] call that gets past the
    stacking of the buffers raises, leaves the buffers empty, and leaves the
    parameters, their gradients and the optimizer state as they were. *)
Theorem update_policy_with_Policy_discards_rollout
  (state_space action_space : nat) (to_layers : Params -> PolicyNet.Layers)
  (self : Agent) (ro : Rollout) :
  policy self = repository_policy state_space action_space to_layers ->
  drain self = Ok ro ->
  raises (snd (update_policy self)) /\
  buffers_empty (fst (update_policy self)) /\
  parameters (fst (update_policy self)) = parameters self /\
  param_grad (fst (update_policy self)) = param_grad self /\
  optimizer (fst (update_policy self)) = optimizer self.
Proof.
  intros Hp Hd.
  destruct (update_policy_with_repository_policy_raises
              state_space action_space to_layers self ro Hp Hd) as [[e He] Hb].
  split; [exists e; exact He|]. split; [exact Hb|].
  assert (Hl : raises (compute_losses self ro)).
  { unfold compute_losses.
    destruct (discount_rewards _ _) as [G|e0]; cbn [bind]; [|eexists; reflexivity].
    unfold call_policy at 1. rewrite Hp. unfold repository_policy.
    destruct (Policy_forward_raises state_space action_space
                (to_layers (parameters self)) (constant (r_states ro))) as [e0 He0].
    rewrite He0. cbn [bind]. eexists. reflexivity. }
  destruct Hl as [e1 Hl].
  rewrite update_policy_unfold, Hd, Hl. cbn [fst].
  unfold cleared, clear_buffers. cbn [fst]. repeat split.
Qed.

(** X18. With the repository's own network as the policy, [get_action]
    raises for every state, in evaluation mode and in sampling mode alike,
    and the random source is left untouched. *)
Theorem get_action_with_Policy_raises
  (state_space action_space : nat) (to_layers : Params -> PolicyNet.Layers)
  (self : Agent) (state : tensor R) (evaluation : bool) (rng : RNG) :
  policy self = repository_policy state_space action_space to_layers ->
  raises (fst (get_action self state evaluation rng)) /\
  snd (get_action self state evaluation rng) = rng.
Proof.
  intros Hp. unfold get_action, call_policy. rewrite Hp. unfold repository_policy.
  destruct (Policy_forward_raises state_space action_space
              (to_layers (parameters self)) (constant state)) as [e He].
  rewrite He. cbn. split; [exists e|]; reflexivity.
Qed.

Lemma stack_stays_ragged {A : Type} (l extra : list (tensor A)) :
  l <> [] -> raises (stack l) -> raises (stack (l ++ extra)).
Proof.
  intros Hne [e He]. destruct l as [|t ts]; [congruence|].
  cbn [app]. unfold stack in *.
  destruct (forallb (fun t' : tensor A => shape_eqb (shape t) (shape t')) ts) eqn:E;
    [discriminate|].
  rewrite forallb_app, E. cbn [andb]. eexists. reflexivity.
Qed.

Lemma drain_raises_of_ragged_states (self : Agent) :
  raises (stack (states self)) -> raises (drain self).
Proof.
  intros [e He]. unfold drain.
  destruct (stack (action_log_probs self)); cbn [bind]; [|eexists; reflexivity].
  rewrite He. cbn [bind]. eexists. reflexivity.
Qed.

(** X19. A failed stacking keeps the buffers, and later transitions are
    appended to them: once the buffered states are of different shapes,
    every later [update_policy] raises, whatever calls of [store_outcome]
    and [update_policy] are made in between, and no transition is ever
    removed from the buffer. *)
Theorem ragged_buffer_blocks_every_later_update (self : Agent)
  (ops : list operation) :
  states self <> [] -> raises (stack (states self)) ->
  raises (snd (update_policy (run ops self))) /\
  fst (update_policy (run ops self)) = run ops self /\
  exists later, states (run ops self) = states self ++ later.
Proof.
  intros Hne Hr.
  assert (Hinv : states (run ops self) <> [] /\
                 raises (stack (states (run ops self))) /\
                 exists later, states (run ops self) = states self ++ later).
  { unfold run. revert self Hne Hr.
    induction ops as [|op ops IH]; intros self Hne Hr; cbn [fold_left].
    - split; [exact Hne|]. split; [exact Hr|]. exists []. now rewrite app_nil_r.
    - assert (Hstep : states (perform self op) <> [] /\
                      raises (stack (states (perform self op))) /\
                      exists x, states (perform self op) = states self ++ x).
      { destruct op as [t|s n lp r d|]; cbn [perform].
        - rewrite store_outcome_converted. cbn [fst states]. split; [|split].
          + destruct (states self); discriminate.
          + now apply stack_stays_ragged.
          + eexists. reflexivity.
        - destruct (store_outcome_states self s n lp r d) as (-> & _).
          split; [|split].
          + destruct (states self); [congruence | discriminate].
          + destruct s as [t|]; [now apply stack_stays_ragged|].
            now rewrite app_nil_r.
          + eexists. reflexivity.
        - destruct (drain_raises_of_ragged_states self Hr) as [e He].
          rewrite (update_policy_when_drain_raises self e He). cbn [fst].
          split; [exact Hne|]. split; [exact Hr|]. exists []. now rewrite app_nil_r. }
      destruct Hstep as (Hne1 & Hr1 & x & Hx).
      destruct (IH (perform self op) Hne1 Hr1) as (Hne2 & Hr2 & later & Hl).
      split; [exact Hne2|]. split; [exact Hr2|].
      exists (x ++ later). now rewrite Hl, Hx, app_assoc. }
  destruct Hinv as (_ & Hr' & Hlater).
  destruct (drain_raises_of_ragged_states _ Hr') as [e He].
  rewrite (update_policy_when_drain_raises _ e He). cbn [fst snd].
  split; [exists e; reflexivity|]. split; [reflexivity | exact Hlater].
Qed.

(** X20. What the critic loss is on a rollout of [N] steps: entry [i] of the
    pairwise distance is the 2-norm, over all steps [j], of
    [values[j] - G[i] + eps], so the loss is the mean over [i] of
    [sqrt(sum over j of (values[j] - G[i] + eps)^2)]: every value estimate
    is compared with every return, not only with the return of its own
    step. *)
Theorem critic_loss_compares_all_pairs (self : Agent) (ro : Rollout)
  (N : nat) (lps : list dual) (rs : list R) (vs : list dual) :
  well_formed self ro N lps rs vs ->
  exists (l : Losses) (G : list R) (x : dual),
    compute_losses self ro = Ok l /\
    discount_rewards rs (gamma self) = Ok G /\
    critic_loss l = T [] [x] /\
    val x
    = Rsum (map (fun i =>
                   sqrt (Rsum (map (fun j =>
                                      (val (nth j vs (dconst 0)) - nth i G 0 + eps)
                                      * (val (nth j vs (dconst 0)) - nth i G 0 + eps))
                                   (seq 0 N))))
                (seq 0 N)) / INR N.
Proof.
  intros Hwf.
  pose proof (compute_losses_well_formed self ro N lps rs vs Hwf) as Hl.
  cbv zeta in Hl.
  eexists. exists (returns_spec rs (gamma self)). eexists.
  split; [exact Hl|]. split; [apply discount_rewards_refines|].
  split; [reflexivity|].
  rewrite critic_loss_value. f_equal. f_equal.
  unfold distance_rows. rewrite returns_spec_length, (wf_rs _ _ _ _ _ _ Hwf).
  rewrite map_map. apply map_ext. intros i.
  unfold dnorm2, dsqrt. cbn [val dlift]. f_equal.
  rewrite val_dsum, !map_map. f_equal.
Qed.

End UpdateMore.

(** ** Sampling an action *)

Section SamplingFacts.

Context `{Runtime}.





End SamplingFacts.

(** ** The further properties on concrete inputs *)

Section MoreConcreteRuns.

Import Concrete Examples.

#[local] Existing Instance Concrete.grad_space.
#[local] Existing Instance Concrete.runtime.

Lemma Policy_forward_failure_modes_witness :
  PolicyNet.forward (PolicyNet.Policy_init 1 1 identity_layers)
                    (T [3%nat] [@D grad_space 1 0; @D grad_space 2 0; @D grad_space 3 0])
  = Raise IndexError /\
  PolicyNet.forward (PolicyNet.Policy_init 1 1 identity_layers)
                    (T [1%nat; 1%nat; 1%nat] [@D grad_space 1 0])
  = Raise (AttributeError "fc3_critic").
Proof.
  split.
  - apply (proj1 (@Policy_forward_failure_modes grad_space 1 1 identity_layers
                    (T [3%nat] [@D grad_space 1 0; @D grad_space 2 0; @D grad_space 3 0]))
                 (T [3%nat] [@D grad_space 1 0; @D grad_space 2 0; @D grad_space 3 0]) eq_refl).
    cbn. lia.
  - set (x := T [1%nat; 1%nat; 1%nat] [@D grad_space 1 0]).
    set (y2 := T [1%nat; 1%nat] [dsum [@D grad_space 1 0]]).
    set (y4 := unsqueeze0 (tmap drelu (tmap drelu y2))).
    destruct (@Normal_init_of_softplus grad_space (squeeze0 y4)
                (PolicyNet.sigma_init identity_layers) eq_refl) as [_ Hn].
    cbn [shape rev app broadcast_rev Nat.eqb y4 y2 unsqueeze0 squeeze0 tmap
         identity_layers PolicyNet.sigma_init] in Hn.
    destruct Hn as (d & Hd & _).
    exact (proj2 (@Policy_forward_failure_modes grad_space 1 1 identity_layers x)
                 x y2 (tmap drelu y2) y4 (y4, y4) (squeeze0 y4) d
                 eq_refl eq_refl eq_refl eq_refl eq_refl Hd).
Defined.

Lemma store_then_drain_witness :
  drain (run (map Store two_transitions) (Agent_init (table_policy [0; 0]) 0))
  = Ok (mkRollout (T [2%nat] [@D grad_space 5 1; @D grad_space 9 1])
                  (T [2%nat; 2%nat] [1; 2; 3; 4])
                  (T [2%nat; 2%nat] [3; 4; 7; 8])
                  (T [2%nat] [6; 10])
                  (T [2%nat] [0; 1])).
Proof.
  apply (@store_then_drain grad_space runtime (table_policy [0; 0]) 0 two_transitions [2%nat] [2%nat]).
  - discriminate.
  - intros t [<-|[<-|[]]]; repeat split.
Defined.

Lemma update_then_store_then_drain_witness :
  drain (run (Update :: map Store two_transitions) agent_with_failing_policy)
  = Ok (mkRollout (T [2%nat] [@D grad_space 5 1; @D grad_space 9 1])
                  (T [2%nat; 2%nat] [1; 2; 3; 4])
                  (T [2%nat; 2%nat] [3; 4; 7; 8])
                  (T [2%nat] [6; 10])
                  (T [2%nat] [0; 1])).
Proof.
  apply (@update_then_store_then_drain grad_space runtime agent_with_failing_policy
           (rollout_of [1]) two_transitions [2%nat] [2%nat] eq_refl).
  - discriminate.
  - intros t [<-|[<-|[]]]; repeat split.
Defined.



Lemma update_policy_twice_witness :
  update_policy (fst (update_policy (rollout_agent [3; 4] [1; 2])))
  = (fst (update_policy (rollout_agent [3; 4] [1; 2])), Raise RuntimeError).
Proof.
  exact (@update_policy_twice grad_space runtime _ _ (drain_rollout_agent_two 3 4 1 2)).
Defined.

Lemma update_policy_with_Policy_discards_rollout_witness :
  raises (snd (update_policy agent_with_Policy)) /\
  buffers_empty (fst (update_policy agent_with_Policy)) /\
  parameters (fst (update_policy agent_with_Policy)) = 0.
Proof.
  destruct (@update_policy_with_Policy_discards_rollout grad_space runtime 1 1 (fun _ => identity_layers)
              agent_with_Policy (rollout_of [1]) eq_refl eq_refl)
    as (Hr & Hb & Hp & _).
  split; [exact Hr|]. split; [exact Hb | exact Hp].
Defined.

Lemma get_action_with_Policy_raises_witness :
  raises (fst (get_action agent_with_Policy (T [1%nat] [0]) true 7%nat)) /\
  snd (get_action agent_with_Policy (T [1%nat] [0]) true 7%nat) = 7%nat.
Proof.
  exact (@get_action_with_Policy_raises grad_space runtime 1 1 (fun _ => identity_layers)
           agent_with_Policy (T [1%nat] [0]) true 7%nat eq_refl).
Defined.

Lemma ragged_buffer_blocks_every_later_update_witness :
  raises (snd (update_policy
                 (run [Update; Store (hd (mkTransition (T [] []) (T [] []) (scalar 0) 0 true)
                                         two_transitions); Update]
                      ragged_agent))).
Proof.
  apply (@ragged_buffer_blocks_every_later_update grad_space runtime ragged_agent).
  - discriminate.
  - eexists. reflexivity.
Defined.

Lemma critic_loss_compares_all_pairs_witness :
  exists (l : Losses) (x : dual),
    compute_losses (rollout_agent [3; 4] [1; 2]) (rollout_of [1; 2]) = Ok l /\
    critic_loss l = T [] [x] /\
    val x
    = Rsum (map (fun i =>
                   sqrt (Rsum (map (fun j =>
                      (val (nth j [@D grad_space (3 + 0) 1; @D grad_space (4 + 0) 1] (dconst 0))
                       - nth i (returns_spec [1; 2] (99 / 100)) 0 + eps)
                      * (val (nth j [@D grad_space (3 + 0) 1; @D grad_space (4 + 0) 1] (dconst 0))
                         - nth i (returns_spec [1; 2] (99 / 100)) 0 + eps))
                                   (seq 0 2))))
                (seq 0 2)) / INR 2.
Proof.
  destruct (@critic_loss_compares_all_pairs grad_space runtime _ _ _ _ _ _
              (well_formed_rollout_agent_two 3 4 1 2))
    as (l & G & x & Hl & HG & Hc & Hval).
  exists l, x. split; [exact Hl|]. split; [exact Hc|].
  rewrite discount_rewards_refines in HG. injection HG as <-. exact Hval.
Defined.


End MoreConcreteRuns.
